(** * h264decoder: the incremental bitstream-to-frame adapter

    A shallow embedding of [decoder/decoder.go].  The Go package is a thin
    layer over libavcodec / libavutil / libswscale (reached through the
    goav bindings).  The native library is not part of the package, so it
    is an interface here ([Libav]): a type of native worlds and one
    operation per library function the package calls.  Everything the
    package itself does (the scan loop of [Decode], the construction
    sequence of [New], the converter, the copy into Go memory) is
    transcribed function by function. *)

From Stdlib Require Import ZArith Lia Bool.
From stdpp Require Import list strings.

Open Scope Z_scope.

(** ** Go-side data *)

(** A native pointer; [NULL] is Go's [nil] for the goav handle types. *)
Definition ptr := Z.
Definition NULL : ptr := 0.

(** Go's [error] values of this package are made with [errors.New]. *)
Definition error := string.

Definition byte := Byte.byte.

(** The address of a backing array in Go memory (what a [[]byte] points to). *)
Definition addr := nat.

(** [type Frame struct { Data []byte; Width, Height, Stride int }]. *)
Record Frame := mkFrame {
  Data : addr;
  Width : Z;
  Height : Z;
  Stride : Z
}.

(** [type converter struct]. *)
Record converter := mkConverter {
  framergb : ptr;
  conv_context : ptr;
  pixFmt : Z
}.

(** [type Decoder struct]. *)
Record Decoder := mkDecoder {
  context : ptr;
  parser : ptr;
  frame : ptr;
  pkt : ptr;
  conv : converter
}.

(** [image.Rect(x0, y0, x1, y1)]: the corners, put in order. *)
Definition image_Rect (x0 y0 x1 y1 : Z) : (Z * Z) * (Z * Z) :=
  ((Z.min x0 x1, Z.min y0 y1), (Z.max x0 x1, Z.max y0 y1)).

(** [rgb.Image], as [ToRGB] fills it in. *)
Record Image := mkImage {
  Pix : addr;
  ImgStride : Z;
  Rect : (Z * Z) * (Z * Z)
}.

(** [const av_PIX_FMT_BGR24 = 3]. *)
Definition av_PIX_FMT_BGR24 : Z := 3.
Definition PixelFormatBGR : Z := av_PIX_FMT_BGR24.

(** Integer conversions that the source writes out. *)
Definition wrap_signed (bits : Z) (z : Z) : Z :=
  (z + 2 ^ (bits - 1)) mod 2 ^ bits - 2 ^ (bits - 1).

(** Go [int] on the 64-bit targets of the package, [C.int], [uintptr]. *)
Definition go_int (z : Z) : Z := wrap_signed 64 z.
Definition C_int (z : Z) : Z := wrap_signed 32 z.
Definition uintptr (z : Z) : Z := z mod 2 ^ 64.

(** ** The native library *)

(** What has to be given back to the library, and the call that does it
    in [Close]. *)
Inductive Resource :=
| ResContext      (* AvcodecAllocContext3 / AvFree *)
| ResOpenCodec    (* AvcodecOpen2 / AvcodecClose *)
| ResParser       (* AvParserInit / AvParserClose *)
| ResFrame        (* AvFrameAlloc / AvFrameFree *)
| ResPacket       (* AvPacketAlloc / AvFreePacket *)
| ResBuffer       (* AvMalloc / AvFree *)
| ResSwsContext.  (* SwsGetcontext / SwsFreecontext *)

#[global] Instance Resource_eq_dec : EqDecision Resource.
Proof. solve_decision. Defined.

(** The library functions the package calls. *)
Inductive LibFn :=
| FnAvcodecRegisterAll | FnAvcodecFindDecoder | FnAvcodecAllocContext3
| FnAvcodecOpen2 | FnAvParserInit | FnAvFrameAlloc | FnAvPacketAlloc
| FnAvInitPacket | FnSetFlags | FnAvParserParse2 | FnAvcodecDecodeVideo2
| FnAvpictureFill | FnAvMalloc | FnAvFree | FnSwsGetcontext
| FnSwsGetcachedcontext | FnAvSetFrame | FnSwsScale2 | FnSwsFreecontext
| FnAvFrameFree | FnAvParserClose | FnAvcodecClose | FnAvFreePacket.

#[global] Instance LibFn_eq_dec : EqDecision LibFn.
Proof. solve_decision. Defined.

(** The release functions among them. *)
Definition is_release (f : LibFn) : bool :=
  match f with
  | FnAvFree | FnSwsFreecontext | FnAvFrameFree | FnAvParserClose
  | FnAvcodecClose | FnAvFreePacket => true
  | _ => false
  end.

(** The interface of the native library.  [World] is everything on the C
    side: codec and parser state, packets, pictures, scaling contexts and
    the C heap.  Each function takes the world last and returns the new
    world with its result; field reads ([Width], [Size], ...) do not
    change it.  The constants are those the package takes from goav. *)
Set Implicit Arguments.

Record Libav (World : Type) := mkLibav {
  AV_PIX_FMT_RGB24 : Z;
  AV_CODEC_ID_H264 : Z;
  AV_CODEC_ID_H265 : Z;
  AV_CODEC_FLAG_TRUNCATED : Z;
  AV_NOPTS_VALUE : Z;
  SWS_BILINEAR : Z;
  (* avcodec *)
  AvcodecRegisterAll : World -> World;
  AvcodecFindDecoder : Z -> World -> World * ptr;
  AvcodecAllocContext3 : ptr -> World -> World * ptr;
  AvcodecOpen2 : ptr -> ptr -> ptr -> World -> World * Z;
  AvParserInit : Z -> World -> World * ptr;
  AvPacketAlloc : World -> World * ptr;
  AvInitPacket : ptr -> World -> World;
  PktFlags : ptr -> World -> Z;
  PktSetFlags : ptr -> Z -> World -> World;
  PktSize : ptr -> World -> Z;
  (* context, parser, packet, data, size, pts, dts, pos |-> bytes used *)
  AvParserParse2 :
    ptr -> ptr -> ptr -> list byte -> Z -> Z -> Z -> Z -> World -> World * Z;
  (* context, picture, packet |-> (bytes used, gotPicture) *)
  AvcodecDecodeVideo2 : ptr -> ptr -> ptr -> World -> World * (Z * Z);
  CtxWidth : ptr -> World -> Z;
  CtxHeight : ptr -> World -> Z;
  CtxPixFmt : ptr -> World -> Z;
  (* picture, buffer, format, width, height |-> size *)
  AvpictureFill : ptr -> ptr -> Z -> Z -> Z -> World -> World * Z;
  AvParserClose : ptr -> World -> World;
  AvcodecClose : ptr -> World -> World;
  AvFreePacket : ptr -> World -> World;
  (* avutil *)
  AvFrameAlloc : World -> World * ptr;
  AvFrameFree : ptr -> World -> World;
  AvMalloc : Z -> World -> World * ptr;
  AvFree : ptr -> World -> World;
  AvSetFrame : ptr -> Z -> Z -> Z -> World -> World * option error;
  FrameWidth : ptr -> World -> Z;
  FrameHeight : ptr -> World -> Z;
  (* avutil.Linesize(f)[0] and the bytes behind avutil.Data(f)[0] *)
  Linesize0 : ptr -> World -> Z;
  Data0 : ptr -> World -> ptr;
  (* swscale *)
  (* srcW, srcH, srcFormat, dstW, dstH, dstFormat, flags |-> context *)
  SwsGetcontext : Z -> Z -> Z -> Z -> Z -> Z -> Z -> World -> World * ptr;
  SwsGetcachedcontext :
    ptr -> Z -> Z -> Z -> Z -> Z -> Z -> Z -> World -> World * ptr;
  (* context, source picture, srcSliceY, srcSliceH, destination picture *)
  SwsScale2 : ptr -> ptr -> Z -> Z -> ptr -> World -> World;
  SwsFreecontext : ptr -> World -> World;
  (* the byte of C memory at an address *)
  CByte : ptr -> World -> byte
}.

Unset Implicit Arguments.

(** ** Program states and the monad of the package's functions *)

Section Monad.

Context {World : Type}.

(** A state is the native world together with Go memory and two pieces of
    bookkeeping: the native resources acquired and not yet given back
    (most recent first), and the library functions called so far (most
    recent last). *)
Record State := mkState {
  world : World;
  goheap : list (list byte);
  live : list (Resource * ptr);
  calls : list LibFn
}.

(** A Go function either returns, panics, or is still running when the
    fuel of its loop is spent. *)
Inductive Outcome (A : Type) :=
| Done (a : A) (st : State)
| Panic (msg : string) (st : State)
| OutOfFuel.

Definition M (A : Type) := State -> Outcome A.

Definition ret {A} (a : A) : M A := fun st => Done A a st.

Definition bind {A B} (m : M A) (k : A -> M B) : M B :=
  fun st =>
    match m st with
    | Done _ a st' => k a st'
    | Panic _ msg st' => Panic B msg st'
    | OutOfFuel _ => OutOfFuel B
    end.

Definition panic {A} (msg : string) : M A := fun st => Panic A msg st.

(** A call of a library function: the world moves on and the call is
    recorded. *)
Definition call {A} (f : LibFn) (op : World -> World * A) : M A :=
  fun st =>
    let '(w, a) := op (world st) in
    Done A a (mkState w (goheap st) (live st) (calls st ++ [f])).

Definition call_ (f : LibFn) (op : World -> World) : M unit :=
  call f (fun w => (op w, tt)).

(** A field read through a handle. *)
Definition read {A} (g : World -> A) : M A :=
  fun st => Done A (g (world st)) st.

(** Bookkeeping of native resources: a non-nil handle that the library
    hands out is live until the matching release function is called
    on it. *)
Definition acquire (r : Resource) (p : ptr) : M unit :=
  fun st =>
    Done unit tt
      (if p =? NULL then st
       else mkState (world st) (goheap st) ((r, p) :: live st) (calls st)).

Fixpoint remove_first (x : Resource * ptr) (l : list (Resource * ptr)) :=
  match l with
  | [] => []
  | y :: l' => if decide (x = y) then l' else y :: remove_first x l'
  end.

Definition release (r : Resource) (p : ptr) : M unit :=
  fun st =>
    Done unit tt
      (mkState (world st) (goheap st) (remove_first (r, p) (live st)) (calls st)).

(** A fresh backing array in Go memory. *)
Definition go_alloc (bytes : list byte) : M addr :=
  fun st =>
    Done addr (length (goheap st))
      (mkState (world st) (goheap st ++ [bytes]) (live st) (calls st)).

(** From [st] to [st'] nothing was given back to the library: no release
    function was called and every resource live in [st] is live in [st']. *)
Definition releases_nothing (st st' : State) : Prop :=
  (exists acquired, live st' = acquired ++ live st) /\
  (exists made,
     calls st' = calls st ++ made /\
     Forall (fun f => is_release f = false) made).




(** A computation without a loop of its own: it never runs out of fuel. *)
Definition loop_free {A} (m : M A) : Prop :=
  forall st, m st <> OutOfFuel A.

(** The library calls [New] makes before it looks at the compression. *)
Definition calls_before_validation : list LibFn :=
  [FnAvcodecRegisterAll; FnAvcodecFindDecoder; FnAvcodecAllocContext3;
   FnAvcodecOpen2; FnAvParserInit; FnAvFrameAlloc; FnAvPacketAlloc;
   FnAvInitPacket; FnSetFlags].

(** What a run returned, if it did. *)
Definition returned {A} (o : Outcome A) : option A :=
  match o with
  | Done _ a _ => Some a
  | _ => None
  end.

(** A loop run on more and more fuel comes to an end: a return or a panic. *)
Definition terminates {A} (run : nat -> Outcome A) : Prop :=
  exists fuel, run fuel <> OutOfFuel A.

End Monad.

Arguments State World : clear implicits.
Arguments Outcome World A : clear implicits.
Arguments M World A : clear implicits.
Arguments Done {World A}.
Arguments Panic {World A}.
Arguments OutOfFuel {World A}.

Declare Scope go_scope.
Delimit Scope go_scope with go.
Notation "x <- m ;; k" := (bind m (fun x => k))
  (at level 20, m at level 99, k at level 200, only parsing) : go_scope.
Notation "' pat <- m ;; k" := (bind m (fun x => match x with pat => k end))
  (at level 20, pat pattern, m at level 99, k at level 200, only parsing)
  : go_scope.
Notation "m ;; k" := (bind m (fun _ => k))
  (at level 100, k at level 200, right associativity, only parsing) : go_scope.

(** ** The package *)

Section Adapter.

Context {World : Type}.
Variable L : Libav World.

Local Open Scope go_scope.

Let M := (M World).

(** [PixelFormatRGB], [H264], [H265]: the goav constants. *)
Definition PixelFormatRGB : Z := AV_PIX_FMT_RGB24 L.
Definition H264 : Z := AV_CODEC_ID_H264 L.
Definition H265 : Z := AV_CODEC_ID_H265 L.

(** A method or field read on a handle; on a nil handle Go panics. *)
Definition field {A} (p : ptr) (g : ptr -> World -> A) : M A :=
  if p =? NULL then panic "invalid memory address or nil pointer dereference"
  else read (g p).

(** A library call that hands out a resource. *)
Definition alloc (r : Resource) (f : LibFn) (op : World -> World * ptr) : M ptr :=
  p <- call f op ;;
  acquire r p ;;
  ret p.

(** A library call that takes one back. *)
Definition free (r : Resource) (f : LibFn) (op : ptr -> World -> World) (p : ptr)
  : M unit :=
  call_ f (op p) ;;
  release r p.

(** [C.GoBytes(p, n)]: a new Go byte slice holding a copy of the [n] bytes
    of C memory at [p]; a negative length panics. *)
Definition GoBytes (p : ptr) (n : Z) : M addr :=
  if n <? 0 then panic "gobytes: length out of range"
  else
    bytes <- read (fun w =>
               map (fun i => CByte L (p + Z.of_nat i) w) (seq 0 (Z.to_nat n))) ;;
    go_alloc bytes.

(** *** converter *)

Definition newConverter (pixelFormat : Z) : M (option converter * option error) :=
  fr <- alloc ResFrame FnAvFrameAlloc (AvFrameAlloc L) ;;
  if fr =? NULL then ret (None, Some "cannot allocate frame"%string)
  else ret (Some (mkConverter fr NULL pixelFormat), None).

Definition converter_Close (c : converter) : M unit :=
  free ResSwsContext FnSwsFreecontext (SwsFreecontext L) (conv_context c) ;;
  free ResFrame FnAvFrameFree (AvFrameFree L) (framergb c).

(** The scaling context obtained in [Convert] is kept in the local
    [swsCtx] only; the field [c.context] is never assigned. *)
Definition Convert (c : converter) (context frame out_rgb : ptr)
  : M (ptr * option error) :=
  w <- field context (CtxWidth L) ;;
  h <- field context (CtxHeight L) ;;
  pixFmt0 <- field context (CtxPixFmt L) ;;
  swsCtx <-
    (if conv_context c =? NULL then
       alloc ResSwsContext FnSwsGetcontext
         (SwsGetcontext L w h pixFmt0 w h (pixFmt c) (SWS_BILINEAR L))
     else
       call FnSwsGetcachedcontext
         (SwsGetcachedcontext L (conv_context c)
            w h pixFmt0 w h (pixFmt c) (SWS_BILINEAR L))) ;;
  if context =? NULL then ret (NULL, Some "cannot allocate context"%string)
  else
    err <- call FnAvSetFrame (AvSetFrame L (framergb c) w h (pixFmt c)) ;;
    match err with
    | Some e => ret (NULL, Some e)
    | None =>
        call FnAvpictureFill
          (AvpictureFill L (framergb c) out_rgb (pixFmt c) w h) ;;
        call_ FnSwsScale2 (SwsScale2 L swsCtx frame 0 h (framergb c)) ;;
        ret (framergb c, err)
    end.

Definition PredictSize (c : converter) (w h : Z) : M Z :=
  call FnAvpictureFill (AvpictureFill L (framergb c) NULL (pixFmt c) w h).

(** *** New *)

Definition New (pxlFmt cpr : Z) : M (option Decoder * option error) :=
  call_ FnAvcodecRegisterAll (AvcodecRegisterAll L) ;;
  codec <- call FnAvcodecFindDecoder (AvcodecFindDecoder L cpr) ;;
  if codec =? NULL then ret (None, Some "cannot find decoder"%string)
  else
  context <- alloc ResContext FnAvcodecAllocContext3 (AvcodecAllocContext3 L codec) ;;
  if context =? NULL then ret (None, Some "cannot allocate context"%string)
  else
  rc <- call FnAvcodecOpen2 (AvcodecOpen2 L context codec NULL) ;;
  if rc <? 0 then ret (None, Some "cannot open content"%string)
  else
  acquire ResOpenCodec context ;;
  parser <- alloc ResParser FnAvParserInit (AvParserInit L cpr) ;;
  if parser =? NULL then ret (None, Some "cannot init parser"%string)
  else
  frame <- alloc ResFrame FnAvFrameAlloc (AvFrameAlloc L) ;;
  if frame =? NULL then ret (None, Some "cannot allocate frame"%string)
  else
  pkt <- alloc ResPacket FnAvPacketAlloc (AvPacketAlloc L) ;;
  if pkt =? NULL then ret (None, Some "cannot allocate packet"%string)
  else
  call_ FnAvInitPacket (AvInitPacket L pkt) ;;
  flags <- field pkt (PktFlags L) ;;
  call_ FnSetFlags (PktSetFlags L pkt (Z.lor flags (AV_CODEC_FLAG_TRUNCATED L))) ;;
  if negb (cpr =? H264) && negb (cpr =? H265)
  then ret (None, Some "unsupported compression"%string)
  else
  match
    (if pxlFmt =? PixelFormatRGB then Some (AV_PIX_FMT_RGB24 L)
     else if pxlFmt =? PixelFormatBGR then Some av_PIX_FMT_BGR24
     else None)
  with
  | None => ret (None, Some "unsupported pixel format"%string)
  | Some converterPxlFmt =>
      '(converter, err) <- newConverter converterPxlFmt ;;
      match err, converter with
      | Some e, _ => ret (None, Some e)
      | None, Some cv => ret (Some (mkDecoder context parser frame pkt cv), None)
      | None, None =>
          (* not reached: [newConverter] returns a converter or an error *)
          panic "invalid memory address or nil pointer dereference"
      end
  end.

(** *** Decode *)

Definition parse (h : Decoder) (data : list byte) (bs : Z) : M Z :=
  call FnAvParserParse2
    (AvParserParse2 L (context h) (parser h) (pkt h) data bs
       0 0 (AV_NOPTS_VALUE L)).

Definition isFrameAvailable (h : Decoder) : M bool :=
  size <- field (pkt h) (PktSize L) ;;
  ret (0 <? size).

Definition decodeFrame (h : Decoder) : M (ptr * option error) :=
  '(nread, gotPicture) <-
    call FnAvcodecDecodeVideo2
      (AvcodecDecodeVideo2 L (context h) (frame h) (pkt h)) ;;
  if (nread <? 0) || (gotPicture =? 0)
  then ret (NULL, Some "error decoding frame"%string)
  else ret (frame h, None).

Definition frameData (fr : ptr) : M addr :=
  h <- field fr (FrameHeight L) ;;
  linesize0 <- field fr (Linesize0 L) ;;
  data0 <- field fr (Data0 L) ;;
  let size := go_int (linesize0 * h) in
  GoBytes data0 (C_int size).

Definition newFrame (fr : ptr) : M Frame :=
  w <- field fr (FrameWidth L) ;;
  h <- field fr (FrameHeight L) ;;
  linesize0 <- field fr (Linesize0 L) ;;
  data <- frameData fr ;;
  ret (mkFrame data w h linesize0).

(** The deferred [AvFree] of the scratch buffer runs when the function
    returns, after [newFrame] has made its copy. *)
Definition decodeFrameImpl (h : Decoder) (data : list byte)
  : M (option Frame * Z * bool * option error) :=
  let size := Z.of_nat (length data) in
  nread <- parse h data size ;;
  avail <- isFrameAvailable h ;;
  if negb avail then ret (None, nread, false, None)
  else
    '(fr, err) <- decodeFrame h ;;
    match err with
    | Some e => ret (None, nread, true, Some e)
    | None =>
        width <- field (context h) (CtxWidth L) ;;
        height <- field (context h) (CtxHeight L) ;;
        predicted <- PredictSize (conv h) width height ;;
        let bufferSize := uintptr predicted in
        buffer <- alloc ResBuffer FnAvMalloc (AvMalloc L bufferSize) ;;
        '(rgbframe, err) <- Convert (conv h) (context h) fr buffer ;;
        match err with
        | Some e =>
            free ResBuffer FnAvFree (AvFree L) buffer ;;
            ret (None, nread, true, Some e)
        | None =>
            f <- newFrame rgbframe ;;
            free ResBuffer FnAvFree (AvFree L) buffer ;;
            ret (Some f, nread, true, None)
        end
    end.

(** [x != nil]. *)
Definition not_nil {A} (x : option A) : bool :=
  match x with Some _ => true | None => false end.

(** [data[nread:]]: out of range panics. *)
Definition slice_from (data : list byte) (nread : Z) : M (list byte) :=
  if (0 <=? nread) && (nread <=? Z.of_nat (length data))
  then ret (drop (Z.to_nat nread) data)
  else panic "slice bounds out of range".

(** The loop of [Decode], with the local [frames] as an argument; one unit
    of fuel per iteration. *)
Fixpoint Decode_loop (fuel : nat) (h : Decoder) (data : list byte)
    (frames : list Frame) : M (list Frame * option error) :=
  match data with
  | [] => ret (frames, None)
  | _ :: _ =>
      match fuel with
      | O => fun _ => OutOfFuel
      | S fuel' =>
          '(frame, nread, isFrameAvailable, err) <- decodeFrameImpl h data ;;
          if not_nil err && (nread <? 0) then ret ([], err)
          else
            let frames :=
              match isFrameAvailable, frame with
              | true, Some f => frames ++ [f]
              | _, _ => frames
              end in
            data <- slice_from data nread ;;
            Decode_loop fuel' h data frames
      end
  end.

Definition Decode (fuel : nat) (h : Decoder) (data : list byte)
  : M (list Frame * option error) :=
  Decode_loop fuel h data [].

(** *** Close, ToRGB *)

(** [Close] gives the library back what [New] took; the scaling contexts
    of [Convert] are not among it, [c.context] being nil. *)
Definition Close (h : Decoder) : M unit :=
  converter_Close (conv h) ;;
  free ResParser FnAvParserClose (AvParserClose L) (parser h) ;;
  free ResOpenCodec FnAvcodecClose (AvcodecClose L) (context h) ;;
  free ResContext FnAvFree (AvFree L) (context h) ;;
  free ResFrame FnAvFrameFree (AvFrameFree L) (frame h) ;;
  free ResPacket FnAvFreePacket (AvFreePacket L) (pkt h).

(** [ToRGB]: the image is a view of the frame's bytes, not a copy. *)
Definition ToRGB (f : Frame) : Image :=
  {| Pix := Data f;
     ImgStride := Stride f;
     Rect := image_Rect 0 0 (Width f) (Height f) |}.

(** *** A caller: successive calls of [Decode]

    The loop of the package's tests: every chunk goes to one [Decode]
    call, an error is logged and the loop goes on, the frames of the calls
    are taken in order. *)
Fixpoint DecodeChunks (fuel : nat) (h : Decoder) (chunks : list (list byte))
  : M (list Frame) :=
  match chunks with
  | [] => ret []
  | chunk :: rest =>
      '(frames, _) <- Decode fuel h chunk ;;
      more <- DecodeChunks fuel h rest ;;
      ret (frames ++ more)
  end.

(** *** Vocabulary of the properties *)

(** The parser call of [decodeFrameImpl] on the remainder [data]. *)
Definition parser_call (h : Decoder) (data : list byte) (w : World) : World * Z :=
  AvParserParse2 L (context h) (parser h) (pkt h) data
    (Z.of_nat (length data)) 0 0 (AV_NOPTS_VALUE L) w.

(** [decodeFrameImpl] after its first statement: what is done with the
    parser's answer [nread]. *)
Definition after_parse (h : Decoder) (nread : Z)
  : M (option Frame * Z * bool * option error) :=
  avail <- isFrameAvailable h ;;
  if negb avail then ret (None, nread, false, None)
  else
    '(fr, err) <- decodeFrame h ;;
    match err with
    | Some e => ret (None, nread, true, Some e)
    | None =>
        width <- field (context h) (CtxWidth L) ;;
        height <- field (context h) (CtxHeight L) ;;
        predicted <- PredictSize (conv h) width height ;;
        let bufferSize := uintptr predicted in
        buffer <- alloc ResBuffer FnAvMalloc (AvMalloc L bufferSize) ;;
        '(rgbframe, err) <- Convert (conv h) (context h) fr buffer ;;
        match err with
        | Some e =>
            free ResBuffer FnAvFree (AvFree L) buffer ;;
            ret (None, nread, true, Some e)
        | None =>
            f <- newFrame rgbframe ;;
            free ResBuffer FnAvFree (AvFree L) buffer ;;
            ret (Some f, nread, true, None)
        end
    end.

(** The parser's answer is a number of bytes of the remainder it was
    given. *)
Definition parser_in_bounds (h : Decoder) : Prop :=
  forall w data,
    0 <= snd (parser_call h data w) <= Z.of_nat (length data).

(** The parser takes at least one byte of whatever it is given. *)
Definition parser_progresses (h : Decoder) : Prop :=
  forall w data, data <> [] -> 0 < snd (parser_call h data w).

(** The parser finds no complete coded unit in [data]: every call on what
    remains takes at least one byte of it and leaves the packet empty. *)
Inductive NoUnit (h : Decoder) : list byte -> World -> Prop :=
| NoUnit_end w : NoUnit h [] w
| NoUnit_more data w w1 nread :
    data <> [] ->
    parser_call h data w = (w1, nread) ->
    PktSize L (pkt h) w1 <= 0 ->
    0 < nread <= Z.of_nat (length data) ->
    NoUnit h (drop (Z.to_nat nread) data) w1 ->
    NoUnit h data w.

(** The target formats of the package: 24 bits per pixel, RGB or BGR. *)
Definition rgb24_target (fmt : Z) : Prop :=
  fmt = AV_PIX_FMT_RGB24 L \/ fmt = av_PIX_FMT_BGR24.

(** For these targets the converter's output is a packed 24-bit picture
    that fits a [C.int]: after the three library calls of [Convert] on the
    destination picture ([AvSetFrame] without error, [AvpictureFill],
    [SwsScale2]), a row of it has at least 3 bytes per pixel and the whole
    picture has fewer than 2^31 bytes. *)
Definition packed_rgb_output : Prop :=
  forall dst wd ht fmt buf sws src w w1 w2 sz,
    rgb24_target fmt ->
    AvSetFrame L dst wd ht fmt w = (w1, None) ->
    AvpictureFill L dst buf fmt wd ht w1 = (w2, sz) ->
    let w3 := SwsScale2 L sws src 0 ht dst w2 in
    3 * FrameWidth L dst w3 <= Linesize0 L dst w3 /\
    0 <= Linesize0 L dst w3 * FrameHeight L dst w3 < 2 ^ 31.

(** *** Cutting the input

    What it takes of the library for the frames not to depend on where
    the caller cuts the byte string.  The parser keeps what it has not yet
    made into a unit in the native world, so two runs over the same bytes,
    cut differently, go through different worlds; what they share is
    stated with two relations that the library's user supplies. *)


(** A field read, a call with an answer and a call without one that
    cannot tell two related worlds apart. *)
Definition same_value {A} (U : World -> World -> Prop) (g : World -> A) : Prop :=
  forall w w', U w w' -> g w = g w'.

Definition same_answer {A} (U : World -> World -> Prop)
    (op : World -> World * A) : Prop :=
  forall w w', U w w' -> (op w).2 = (op w').2 /\ U (op w).1 (op w').1.

Definition same_effect (U : World -> World -> Prop) (op : World -> World) : Prop :=
  forall w w', U w w' -> U (op w) (op w').

(** [U] is kept by every library operation of a step other than the
    parser call: the packet size, the decoder, the geometry of the codec
    context, the converter and the reads of the converted picture. *)
Record step_congruence (U : World -> World -> Prop) : Prop := {
  sc_PktSize : forall p, same_value U (PktSize L p);
  sc_AvcodecDecodeVideo2 :
    forall c f p, same_answer U (AvcodecDecodeVideo2 L c f p);
  sc_CtxWidth : forall c, same_value U (CtxWidth L c);
  sc_CtxHeight : forall c, same_value U (CtxHeight L c);
  sc_CtxPixFmt : forall c, same_value U (CtxPixFmt L c);
  sc_AvpictureFill :
    forall f b fmt wd ht, same_answer U (AvpictureFill L f b fmt wd ht);
  sc_AvMalloc : forall n, same_answer U (AvMalloc L n);
  sc_AvFree : forall p, same_effect U (AvFree L p);
  sc_SwsGetcontext :
    forall sw sh sf dw dh df fl,
      same_answer U (SwsGetcontext L sw sh sf dw dh df fl);
  sc_SwsGetcachedcontext :
    forall c sw sh sf dw dh df fl,
      same_answer U (SwsGetcachedcontext L c sw sh sf dw dh df fl);
  sc_AvSetFrame : forall f wd ht fmt, same_answer U (AvSetFrame L f wd ht fmt);
  sc_SwsScale2 :
    forall c src y sh dst, same_effect U (SwsScale2 L c src y sh dst);
  sc_FrameWidth : forall f, same_value U (FrameWidth L f);
  sc_FrameHeight : forall f, same_value U (FrameHeight L f);
  sc_Linesize0 : forall f, same_value U (Linesize0 L f);
  sc_Data0 : forall f, same_value U (Data0 L f);
  sc_CByte : forall p, same_value U (CByte L p)
}.

(** The engine of decoder [h] takes its input as a stream.

    [Sim w s w' s'] says that the engine in world [w] with the bytes [s]
    still to come is at the same point of the stream as the engine in
    world [w'] with [s'] still to come; it holds between parser calls and
    does not look at the packet.  [Unit w s w' s'] says the same when both
    have just completed the same unit.  A parser call sees a prefix [d] of
    what is to come, as much as the caller's chunk holds.
      - A call that completes no unit takes at least one byte and stays
        at the same point of the stream: what it took, it keeps.
      - When nothing is left to come on one side, the other side
        completes no unit any more.
      - When both sides complete a unit, whatever each of them saw, it is
        the same unit, and what is left is at the same point again.
      - The rest of a step cannot tell apart two worlds that have just
        completed the same unit. *)
Record cut_independent (h : Decoder)
    (Sim Unit : World -> list byte -> World -> list byte -> Prop) : Prop := {
  ci_sym : forall w s w' s', Sim w s w' s' -> Sim w' s' w s;
  ci_silent :
    forall w d r w' s' w1 n,
      Sim w (d ++ r) w' s' -> d <> [] ->
      parser_call h d w = (w1, n) ->
      PktSize L (pkt h) w1 <= 0 ->
      0 < n /\ Sim w1 (drop (Z.to_nat n) (d ++ r)) w' s';
  ci_end :
    forall w d r w' w1 n,
      Sim w (d ++ r) w' [] -> d <> [] ->
      parser_call h d w = (w1, n) ->
      PktSize L (pkt h) w1 <= 0;
  ci_unit :
    forall w d r w' d' r' w1 n w1' n',
      Sim w (d ++ r) w' (d' ++ r') -> d <> [] -> d' <> [] ->
      parser_call h d w = (w1, n) ->
      parser_call h d' w' = (w1', n') ->
      0 < PktSize L (pkt h) w1 -> 0 < PktSize L (pkt h) w1' ->
      Unit w1 (drop (Z.to_nat n) (d ++ r)) w1' (drop (Z.to_nat n') (d' ++ r'));
  ci_resume : forall w s w' s', Unit w s w' s' -> Sim w s w' s';
  ci_step : forall s s', step_congruence (fun w w' => Unit w s w' s')
}.


End Adapter.

(** The invariant of [Frame] against the Go memory its [Data] lives in:
    [len(Data) == Stride * Height] and [Stride >= Width * 3]. *)
Definition frame_wf (heap : list (list byte)) (f : Frame) : Prop :=
  exists bytes : list byte,
    heap !! Data f = Some bytes /\
    Z.of_nat (length bytes) = Stride f * Height f /\
    Stride f >= Width f * 3.

(** The native resources a decoder holds, in the order [live] has them
    after [New]: most recent first. *)
Definition decoder_resources (h : Decoder) : list (Resource * ptr) :=
  [(ResFrame, framergb (conv h)); (ResPacket, pkt h); (ResFrame, frame h);
   (ResParser, parser h); (ResOpenCodec, context h); (ResContext, context h)].

(** Scaling contexts, each with a handle. *)
Definition scaling_contexts (l : list (Resource * ptr)) : Prop :=
  Forall (fun x => x.1 = ResSwsContext /\ x.2 <> NULL) l.

(** No entry of the bookkeeping is a nil handle. *)
Definition no_nil_handles (l : list (Resource * ptr)) : Prop :=
  Forall (fun x => x.2 <> NULL) l.

(** The messages of the errors [New] makes. *)
Definition New_errors : list error :=
  ["cannot find decoder"; "cannot allocate context"; "cannot open content";
   "cannot init parser"; "cannot allocate frame"; "cannot allocate packet";
   "unsupported compression"; "unsupported pixel format"]%string.

(** The library calls of a successful [New], and of [Close]. *)
Definition calls_of_New : list LibFn :=
  [FnAvcodecRegisterAll; FnAvcodecFindDecoder; FnAvcodecAllocContext3;
   FnAvcodecOpen2; FnAvParserInit; FnAvFrameAlloc; FnAvPacketAlloc;
   FnAvInitPacket; FnSetFlags; FnAvFrameAlloc].

Definition calls_of_Close : list LibFn :=
  [FnSwsFreecontext; FnAvFrameFree; FnAvParserClose; FnAvcodecClose;
   FnAvFree; FnAvFrameFree; FnAvFreePacket].

(** How often a library function is among the calls made. *)
Definition times (f : LibFn) (made : list LibFn) : nat :=
  length (filter (fun g => g = f) made).

(** The library calls of one step of [Decode] that returns, for a decoder
    without a stored scaling context: the parser alone when no unit is
    complete; the parser and the decoder when the unit gives no picture;
    and with a picture the size query, the scratch buffer, a new scaling
    context and [AvSetFrame], followed by the fill and the scaling unless
    [AvSetFrame] failed, and by the release of the scratch buffer. *)
Definition calls_of_step : list (list LibFn) :=
  [[FnAvParserParse2];
   [FnAvParserParse2; FnAvcodecDecodeVideo2];
   [FnAvParserParse2; FnAvcodecDecodeVideo2; FnAvpictureFill; FnAvMalloc;
    FnSwsGetcontext; FnAvSetFrame; FnAvFree];
   [FnAvParserParse2; FnAvcodecDecodeVideo2; FnAvpictureFill; FnAvMalloc;
    FnSwsGetcontext; FnAvSetFrame; FnAvpictureFill; FnSwsScale2; FnAvFree]].

(** Among the calls made there is none that reuses or frees a scaling
    context; every scratch buffer allocated is freed; a scaling context is
    built for every scratch buffer, and no picture is scaled without one
    having been asked for. *)
Definition one_context_per_picture (made : list LibFn) : Prop :=
  times FnSwsGetcachedcontext made = 0%nat /\
  times FnSwsFreecontext made = 0%nat /\
  times FnAvFree made = times FnAvMalloc made /\
  times FnSwsGetcontext made = times FnAvMalloc made /\
  (times FnSwsScale2 made <= times FnSwsGetcontext made)%nat.

(** ** A small native library to run the package on

    A stand-in for libav with a one-byte "bitstream" format, used to
    evaluate the functions above on concrete inputs.  A run of filler
    bytes [00] is buffered; any other byte is one coded unit whose decoded
    picture is 2x1 (4x2 for bytes from [80] on) and has that byte in
    every pixel position.  With [quirks] on, four byte values stand for
    the irregular answers the package has code for:
      [02]  the parser reports -1 and the unit cannot be decoded,
      [03]  the unit is consumed but cannot be decoded,
      [04]  the parser consumes nothing and has no unit,
      [05]  the unit is decoded but no picture comes out yet.
    A library function listed in [tw_fail] fails (nil handle, negative
    code, or an error). *)
Module Toy.

Record World := mkWorld {
  tw_fail : list LibFn;
  tw_next : ptr;           (* next handle to hand out *)
  tw_pkt_size : Z;         (* packet: size and the unit it holds *)
  tw_unit : byte;
  tw_flags : Z;
  tw_width : Z;            (* codec context: geometry of the last picture *)
  tw_height : Z;
  tw_pixel : byte;         (* native picture *)
  tw_rgb_w : Z;            (* converted picture *)
  tw_rgb_h : Z;
  tw_rgb_linesize : Z;
  tw_rgb_data : ptr;
  tw_out : byte            (* contents of the conversion buffer *)
}.

Definition fails (f : LibFn) (w : World) : bool := bool_decide (f ∈ tw_fail w).

Definition set_next (n : ptr) (w : World) : World :=
  mkWorld (tw_fail w) n (tw_pkt_size w) (tw_unit w) (tw_flags w) (tw_width w)
    (tw_height w) (tw_pixel w) (tw_rgb_w w) (tw_rgb_h w) (tw_rgb_linesize w)
    (tw_rgb_data w) (tw_out w).

Definition set_pkt (size : Z) (u : byte) (w : World) : World :=
  mkWorld (tw_fail w) (tw_next w) size u (tw_flags w) (tw_width w)
    (tw_height w) (tw_pixel w) (tw_rgb_w w) (tw_rgb_h w) (tw_rgb_linesize w)
    (tw_rgb_data w) (tw_out w).

Definition set_flags (fl : Z) (w : World) : World :=
  mkWorld (tw_fail w) (tw_next w) (tw_pkt_size w) (tw_unit w) fl (tw_width w)
    (tw_height w) (tw_pixel w) (tw_rgb_w w) (tw_rgb_h w) (tw_rgb_linesize w)
    (tw_rgb_data w) (tw_out w).

Definition set_picture (wd ht : Z) (px : byte) (w : World) : World :=
  mkWorld (tw_fail w) (tw_next w) (tw_pkt_size w) (tw_unit w) (tw_flags w) wd
    ht px (tw_rgb_w w) (tw_rgb_h w) (tw_rgb_linesize w)
    (tw_rgb_data w) (tw_out w).

Definition set_rgb_size (wd ht : Z) (w : World) : World :=
  mkWorld (tw_fail w) (tw_next w) (tw_pkt_size w) (tw_unit w) (tw_flags w)
    (tw_width w) (tw_height w) (tw_pixel w) wd ht (tw_rgb_linesize w)
    (tw_rgb_data w) (tw_out w).

Definition set_rgb_layout (linesize : Z) (data : ptr) (w : World) : World :=
  mkWorld (tw_fail w) (tw_next w) (tw_pkt_size w) (tw_unit w) (tw_flags w)
    (tw_width w) (tw_height w) (tw_pixel w) (tw_rgb_w w) (tw_rgb_h w) linesize
    data (tw_out w).

Definition set_out (px : byte) (w : World) : World :=
  mkWorld (tw_fail w) (tw_next w) (tw_pkt_size w) (tw_unit w) (tw_flags w)
    (tw_width w) (tw_height w) (tw_pixel w) (tw_rgb_w w) (tw_rgb_h w)
    (tw_rgb_linesize w) (tw_rgb_data w) px.

(** Handing out a handle. *)
Definition fresh (f : LibFn) (w : World) : World * ptr :=
  if fails f w then (w, NULL) else (set_next (tw_next w + 1) w, tw_next w).

Definition registered (id : Z) : bool :=
  (id =? 12) || (id =? 27) || (id =? 173).

Definition find_decoder (id : Z) (w : World) : World * ptr :=
  if fails FnAvcodecFindDecoder w || negb (registered id) then (w, NULL)
  else (w, 1000 + id).

Definition is_filler (b : byte) : bool := Byte.eqb b Byte.x00.

Fixpoint leading_filler (data : list byte) : nat :=
  match data with
  | b :: rest => if is_filler b then S (leading_filler rest) else O
  | [] => O
  end.

Definition parse2 (quirks : bool) (data : list byte) (w : World) : World * Z :=
  let k := leading_filler data in
  match drop k data with
  | [] => (set_pkt 0 Byte.x00 w, Z.of_nat k)
  | b :: _ =>
      if quirks && Byte.eqb b Byte.x02 then
        match k with
        | O => (set_pkt 1 b w, -1)
        | S _ => (set_pkt 0 Byte.x00 w, Z.of_nat k)
        end
      else if quirks && Byte.eqb b Byte.x04 then
        (set_pkt 0 Byte.x00 w, Z.of_nat k)
      else (set_pkt 1 b w, Z.of_nat k + 1)
  end.

Definition decode_video2 (quirks : bool) (w : World) : World * (Z * Z) :=
  let u := tw_unit w in
  if quirks && (Byte.eqb u Byte.x02 || Byte.eqb u Byte.x03) then (w, (-1, 0))
  else if quirks && Byte.eqb u Byte.x05 then (w, (1, 0))
  else if (128 <=? Z.of_N (Byte.to_N u))%Z
       then (set_picture 4 2 u w, (1, 1))
       else (set_picture 2 1 u w, (1, 1)).

Definition set_frame (wd ht : Z) (w : World) : World * option error :=
  if fails FnAvSetFrame w || (wd <=? 0) || (ht <=? 0)
     || (2 ^ 31 <=? 3 * wd * ht)
  then (w, Some "Error allocating avframe buffer"%string)
  else (set_rgb_size wd ht w, None).

Definition picture_fill (buf : ptr) (wd ht : Z) (w : World) : World * Z :=
  (set_rgb_layout (3 * wd) buf w, 3 * wd * ht).

Definition lib (quirks : bool) : Libav World :=
  {| AV_PIX_FMT_RGB24 := 2;
     AV_CODEC_ID_H264 := 27;
     AV_CODEC_ID_H265 := 173;
     AV_CODEC_FLAG_TRUNCATED := 65536;
     AV_NOPTS_VALUE := - 2 ^ 63;
     SWS_BILINEAR := 2;
     AvcodecRegisterAll := fun w => w;
     AvcodecFindDecoder := find_decoder;
     AvcodecAllocContext3 := fun _ => fresh FnAvcodecAllocContext3;
     AvcodecOpen2 := fun _ _ _ w =>
       (w, if fails FnAvcodecOpen2 w then -1 else 0);
     AvParserInit := fun _ => fresh FnAvParserInit;
     AvPacketAlloc := fresh FnAvPacketAlloc;
     AvInitPacket := fun _ w => set_pkt 0 Byte.x00 w;
     PktFlags := fun _ => tw_flags;
     PktSetFlags := fun _ => set_flags;
     PktSize := fun _ => tw_pkt_size;
     AvParserParse2 := fun _ _ _ data _ _ _ _ => parse2 quirks data;
     AvcodecDecodeVideo2 := fun _ _ _ => decode_video2 quirks;
     CtxWidth := fun _ => tw_width;
     CtxHeight := fun _ => tw_height;
     CtxPixFmt := fun _ _ => 0;
     AvpictureFill := fun _ buf _ => picture_fill buf;
     AvParserClose := fun _ w => w;
     AvcodecClose := fun _ w => w;
     AvFreePacket := fun _ w => w;
     AvFrameAlloc := fresh FnAvFrameAlloc;
     AvFrameFree := fun _ w => w;
     AvMalloc := fun _ => fresh FnAvMalloc;
     AvFree := fun _ w => w;
     AvSetFrame := fun _ wd ht _ => set_frame wd ht;
     FrameWidth := fun _ => tw_rgb_w;
     FrameHeight := fun _ => tw_rgb_h;
     Linesize0 := fun _ => tw_rgb_linesize;
     Data0 := fun _ => tw_rgb_data;
     SwsGetcontext := fun _ _ _ _ _ _ _ => fresh FnSwsGetcontext;
     SwsGetcachedcontext := fun _ _ _ _ _ _ _ _ => fresh FnSwsGetcachedcontext;
     SwsScale2 := fun _ _ _ _ _ w => set_out (tw_pixel w) w;
     SwsFreecontext := fun _ w => w;
     CByte := fun _ => tw_out |}.

(** The world before anything was allocated, with the given functions
    failing. *)
Definition world0 (fail : list LibFn) : World :=
  mkWorld fail 1 0 Byte.x00 0 0 0 Byte.x00 0 0 0 NULL Byte.x00.

Definition state0 (fail : list LibFn) : State World :=
  mkState (world0 fail) [] [] [].

(** A decoder as [New] makes it on [state0 []], and the state it leaves. *)
Definition decoder0 : Decoder :=
  mkDecoder 1 2 3 4 (mkConverter 5 NULL 2).

Definition ready : State World :=
  mkState
    (mkWorld [] 6 0 Byte.x00 65536 0 0 Byte.x00 0 0 0 NULL Byte.x00)
    []
    [(ResFrame, 5); (ResPacket, 4); (ResFrame, 3); (ResParser, 2);
     (ResOpenCodec, 1); (ResContext, 1)]
    [FnAvcodecRegisterAll; FnAvcodecFindDecoder; FnAvcodecAllocContext3;
     FnAvcodecOpen2; FnAvParserInit; FnAvFrameAlloc; FnAvPacketAlloc;
     FnAvInitPacket; FnSetFlags; FnAvFrameAlloc].

(** A state in which the converter's picture is [wd] x [ht] with lines of
    [linesize] bytes. *)
Definition converted (wd ht linesize : Z) : State World :=
  mkState
    (mkWorld [] 6 1 Byte.x01 65536 wd ht Byte.x01 wd ht linesize 9 Byte.x01)
    [] (live ready) (calls ready).

(** The state of [decoder0] when a 2x1 picture has just been decoded,
    with the given functions failing. *)
Definition decoded (fail : list LibFn) : State World :=
  mkState
    (mkWorld fail 6 1 Byte.x01 65536 2 1 Byte.x01 0 0 0 NULL Byte.x00)
    [] (live ready) (calls ready).

(** For the parser without quirks: two worlds at the same point of the
    stream differ at most in the packet, and what is to come is the same
    once the filler at its head is left out; after a unit they are the
    same world with the same bytes to come. *)
Definition Sim (w : World) (s : list byte) (w' : World) (s' : list byte)
  : Prop :=
  set_pkt 0 Byte.x00 w = set_pkt 0 Byte.x00 w' /\
  drop (leading_filler s) s = drop (leading_filler s') s'.

Definition Unit (w : World) (s : list byte) (w' : World) (s' : list byte)
  : Prop :=
  w = w' /\ s = s'.

(** A library with another parser in it. *)
Definition with_parser (l : Libav World)
    (p : list byte -> World -> World * Z) : Libav World :=
  {| AV_PIX_FMT_RGB24 := AV_PIX_FMT_RGB24 l;
     AV_CODEC_ID_H264 := AV_CODEC_ID_H264 l;
     AV_CODEC_ID_H265 := AV_CODEC_ID_H265 l;
     AV_CODEC_FLAG_TRUNCATED := AV_CODEC_FLAG_TRUNCATED l;
     AV_NOPTS_VALUE := AV_NOPTS_VALUE l;
     SWS_BILINEAR := SWS_BILINEAR l;
     AvcodecRegisterAll := AvcodecRegisterAll l;
     AvcodecFindDecoder := AvcodecFindDecoder l;
     AvcodecAllocContext3 := AvcodecAllocContext3 l;
     AvcodecOpen2 := AvcodecOpen2 l;
     AvParserInit := AvParserInit l;
     AvPacketAlloc := AvPacketAlloc l;
     AvInitPacket := AvInitPacket l;
     PktFlags := PktFlags l;
     PktSetFlags := PktSetFlags l;
     PktSize := PktSize l;
     AvParserParse2 := fun _ _ _ data _ _ _ _ => p data;
     AvcodecDecodeVideo2 := AvcodecDecodeVideo2 l;
     CtxWidth := CtxWidth l;
     CtxHeight := CtxHeight l;
     CtxPixFmt := CtxPixFmt l;
     AvpictureFill := AvpictureFill l;
     AvParserClose := AvParserClose l;
     AvcodecClose := AvcodecClose l;
     AvFreePacket := AvFreePacket l;
     AvFrameAlloc := AvFrameAlloc l;
     AvFrameFree := AvFrameFree l;
     AvMalloc := AvMalloc l;
     AvFree := AvFree l;
     AvSetFrame := AvSetFrame l;
     FrameWidth := FrameWidth l;
     FrameHeight := FrameHeight l;
     Linesize0 := Linesize0 l;
     Data0 := Data0 l;
     SwsGetcontext := SwsGetcontext l;
     SwsGetcachedcontext := SwsGetcachedcontext l;
     SwsScale2 := SwsScale2 l;
     SwsFreecontext := SwsFreecontext l;
     CByte := CByte l |}.

(** A parser that fails before it has a unit: it answers -1 and leaves
    the packet empty. *)
Definition failing_parser (data : list byte) (w : World) : World * Z :=
  (set_pkt 0 Byte.x00 w, -1).

End Toy.

(** ** A parser that learns the end of a unit from the next start code

    A second stand-in for the parser, closer to the parsers of H.264 and
    H.265 streams.  A unit begins with the start code [00 01] and goes on
    to the next start code; the parser cannot tell that a unit has ended
    before it has seen both bytes of the start code that follows.  What it
    has taken and not yet made into a unit it keeps in a buffer of its own,
    beside the world of the small library.  When a chunk ends inside a
    start code, the first byte of the start code is in the buffer by the
    time the second arrives: the unit is completed with a byte count of 0,
    and the byte read ahead stays in the buffer for the next unit. *)
Module StartCode.

Definition World : Type := Toy.World * list byte.

Definition is_start (a b : byte) : bool :=
  Byte.eqb a Byte.x00 && Byte.eqb b Byte.x01.

(** Where the first start code of [s] begins. *)
Fixpoint find0 (s : list byte) : option nat :=
  match s with
  | [] => None
  | a :: t =>
      match t with
      | [] => None
      | b :: _ => if is_start a b then Some O else option_map S (find0 t)
      end
  end.

(** Where the first unit of [s] ends: at the first start code that does
    not begin at its first byte. *)
Definition unit_end (s : list byte) : option nat :=
  match s with
  | [] => None
  | _ :: t => option_map S (find0 t)
  end.

(** The byte of a unit that the decoder makes the picture of: the one
    after its start code. *)
Definition unit_byte (u : list byte) : byte := nth 2 u Byte.x00.

Definition parse2 (data : list byte) (w : World) : World * Z :=
  let '(tw, pending) := w in
  let s := pending ++ data in
  match unit_end s with
  | None => ((Toy.set_pkt 0 Byte.x00 tw, s), Z.of_nat (length data))
  | Some i =>
      ((Toy.set_pkt (Z.of_nat i) (unit_byte (take i s)) tw, drop i pending),
       Z.of_nat (i - length pending))
  end.

(** The other operations are those of the small library; they leave the
    parser's buffer alone. *)
Definition lift {A} (op : Toy.World -> Toy.World * A) (w : World) : World * A :=
  ((op w.1).1, w.2, (op w.1).2).

Definition lift_ (op : Toy.World -> Toy.World) (w : World) : World :=
  (op w.1, w.2).

Definition peek {A} (g : Toy.World -> A) (w : World) : A := g w.1.

Definition lib : Libav World :=
  let T := Toy.lib false in
  {| AV_PIX_FMT_RGB24 := AV_PIX_FMT_RGB24 T;
     AV_CODEC_ID_H264 := AV_CODEC_ID_H264 T;
     AV_CODEC_ID_H265 := AV_CODEC_ID_H265 T;
     AV_CODEC_FLAG_TRUNCATED := AV_CODEC_FLAG_TRUNCATED T;
     AV_NOPTS_VALUE := AV_NOPTS_VALUE T;
     SWS_BILINEAR := SWS_BILINEAR T;
     AvcodecRegisterAll := lift_ (AvcodecRegisterAll T);
     AvcodecFindDecoder := fun id => lift (AvcodecFindDecoder T id);
     AvcodecAllocContext3 := fun c => lift (AvcodecAllocContext3 T c);
     AvcodecOpen2 := fun c d o => lift (AvcodecOpen2 T c d o);
     AvParserInit := fun id => lift (AvParserInit T id);
     AvPacketAlloc := lift (AvPacketAlloc T);
     AvInitPacket := fun p => lift_ (AvInitPacket T p);
     PktFlags := fun p => peek (PktFlags T p);
     PktSetFlags := fun p f => lift_ (PktSetFlags T p f);
     PktSize := fun p => peek (PktSize T p);
     AvParserParse2 := fun _ _ _ data _ _ _ _ => parse2 data;
     AvcodecDecodeVideo2 := fun c f p => lift (AvcodecDecodeVideo2 T c f p);
     CtxWidth := fun c => peek (CtxWidth T c);
     CtxHeight := fun c => peek (CtxHeight T c);
     CtxPixFmt := fun c => peek (CtxPixFmt T c);
     AvpictureFill := fun f b fmt wd ht => lift (AvpictureFill T f b fmt wd ht);
     AvParserClose := fun p => lift_ (AvParserClose T p);
     AvcodecClose := fun c => lift_ (AvcodecClose T c);
     AvFreePacket := fun p => lift_ (AvFreePacket T p);
     AvFrameAlloc := lift (AvFrameAlloc T);
     AvFrameFree := fun f => lift_ (AvFrameFree T f);
     AvMalloc := fun n => lift (AvMalloc T n);
     AvFree := fun p => lift_ (AvFree T p);
     AvSetFrame := fun f wd ht fmt => lift (AvSetFrame T f wd ht fmt);
     FrameWidth := fun f => peek (FrameWidth T f);
     FrameHeight := fun f => peek (FrameHeight T f);
     Linesize0 := fun f => peek (Linesize0 T f);
     Data0 := fun f => peek (Data0 T f);
     SwsGetcontext := fun sw sh sf dw dh df fl =>
       lift (SwsGetcontext T sw sh sf dw dh df fl);
     SwsGetcachedcontext := fun c sw sh sf dw dh df fl =>
       lift (SwsGetcachedcontext T c sw sh sf dw dh df fl);
     SwsScale2 := fun c src y sh dst => lift_ (SwsScale2 T c src y sh dst);
     SwsFreecontext := fun c => lift_ (SwsFreecontext T c);
     CByte := fun p => peek (CByte T p) |}.

(** The state [Toy.ready] with an empty buffer. *)
Definition ready : State World :=
  mkState (world Toy.ready, []) [] (live Toy.ready) (calls Toy.ready).

(** Two worlds at the same point of the stream: the buffer followed by what
    is to come is the same byte string on both sides, neither buffer holds
    a whole unit, and the worlds of the small library differ at most in the
    packet; after a unit, not even there. *)
Definition Sim (w : World) (s : list byte) (w' : World) (s' : list byte)
  : Prop :=
  Toy.set_pkt 0 Byte.x00 w.1 = Toy.set_pkt 0 Byte.x00 w'.1 /\
  w.2 ++ s = w'.2 ++ s' /\
  unit_end w.2 = None /\ unit_end w'.2 = None.

Definition Unit (w : World) (s : list byte) (w' : World) (s' : list byte)
  : Prop :=
  w.1 = w'.1 /\
  w.2 ++ s = w'.2 ++ s' /\
  unit_end w.2 = None /\ unit_end w'.2 = None.

End StartCode.

(** ** Properties *)

Example New_on_toy :
  New (Toy.lib true) 2 27 (Toy.state0 []) = Done (Some Toy.decoder0, None) Toy.ready.
Proof. vm_compute. reflexivity. Qed.

Section Properties.

Context {World : Type}.
Variable L : Libav World.

Local Open Scope go_scope.

(** *** The monad *)

Lemma bind_Done {A B} (m : M World A) (k : A -> M World B) st a st' :
  m st = Done a st' -> bind m k st = k a st'.
Proof. unfold bind. intros ->. reflexivity. Qed.

Lemma bind_Done_inv {A B} (m : M World A) (k : A -> M World B) st b st'' :
  bind m k st = Done b st'' ->
  exists a st', m st = Done a st' /\ k a st' = Done b st''.
Proof.
  unfold bind. destruct (m st) as [a st'| |]; try discriminate.
  intros H. exists a, st'. split; [reflexivity | exact H].
Qed.

(** Runs a returned computation backwards: a [bind] is split into its
    two halves and a branch is decided by cases. *)
Ltac unbind H :=
  repeat
    (first
       [ apply bind_Done_inv in H as (? & ? & ? & H)
       | match type of H with
         | (match ?x with _ => _ end) _ = Done _ _ => destruct x eqn:?
         end
       | discriminate H ]).

(** *** What a primitive that returned has done *)

Lemma ret_inv {A} (a b : A) (st st' : State World) :
  ret a st = Done b st' -> b = a /\ st' = st.
Proof. unfold ret. intros H. inversion H. auto. Qed.

Lemma call_inv {A} f (op : World -> World * A) st a st' :
  call f op st = Done a st' ->
  op (world st) = (world st', a) /\
  goheap st' = goheap st /\ live st' = live st /\
  calls st' = calls st ++ [f].
Proof.
  unfold call. destruct (op (world st)) as [w x]. intros H.
  inversion H. subst. auto.
Qed.

Lemma call__inv f (op : World -> World) st u st' :
  call_ f op st = Done u st' ->
  world st' = op (world st) /\
  goheap st' = goheap st /\ live st' = live st /\
  calls st' = calls st ++ [f].
Proof.
  unfold call_. intros H. apply call_inv in H as (Hop & ? & ? & ?).
  inversion Hop. auto.
Qed.

Lemma field_inv {A} p (g : ptr -> World -> A) st a st' :
  field p g st = Done a st' -> p <> NULL /\ a = g p (world st) /\ st' = st.
Proof.
  unfold field, read, panic. destruct (p =? NULL) eqn:Hp; [discriminate|].
  apply Z.eqb_neq in Hp. intros H. inversion H. auto.
Qed.

Lemma acquire_inv r p (st : State World) u st' :
  acquire r p st = Done u st' ->
  world st' = world st /\ goheap st' = goheap st /\
  live st' = (if p =? NULL then live st else (r, p) :: live st) /\
  calls st' = calls st.
Proof.
  unfold acquire. intros H. inversion H. destruct (p =? NULL); auto.
Qed.

Lemma release_inv r p (st : State World) u st' :
  release r p st = Done u st' ->
  world st' = world st /\ goheap st' = goheap st /\
  live st' = remove_first (r, p) (live st) /\
  calls st' = calls st.
Proof. unfold release. intros H. inversion H. auto. Qed.

Lemma alloc_inv r f (op : World -> World * ptr) st p st' :
  alloc r f op st = Done p st' ->
  op (world st) = (world st', p) /\
  goheap st' = goheap st /\
  live st' = (if p =? NULL then live st else (r, p) :: live st) /\
  calls st' = calls st ++ [f].
Proof.
  unfold alloc. intros H.
  apply bind_Done_inv in H as (q & st1 & Hcall & H).
  apply bind_Done_inv in H as (u & st2 & Hacq & H).
  apply ret_inv in H as [-> ->].
  apply call_inv in Hcall as (Hop & Hh & Hl & Hc).
  apply acquire_inv in Hacq as (Hw & Hh' & Hl' & Hc').
  rewrite Hw, Hh', Hl', Hc', Hh, Hl, Hc. auto.
Qed.

Lemma free_inv r f (op : ptr -> World -> World) p st u st' :
  free r f op p st = Done u st' ->
  world st' = op p (world st) /\
  goheap st' = goheap st /\
  live st' = remove_first (r, p) (live st) /\
  calls st' = calls st ++ [f].
Proof.
  unfold free. intros H.
  apply bind_Done_inv in H as (q & st1 & Hcall & H).
  apply call__inv in Hcall as (Hw & Hh & Hl & Hc).
  apply release_inv in H as (Hw' & Hh' & Hl' & Hc').
  rewrite Hw', Hh', Hl', Hc', Hw, Hh, Hl, Hc. auto.
Qed.

Lemma go_alloc_inv bytes (st : State World) a st' :
  go_alloc bytes st = Done a st' ->
  a = length (goheap st) /\
  world st' = world st /\ goheap st' = goheap st ++ [bytes] /\
  live st' = live st /\ calls st' = calls st.
Proof. unfold go_alloc. intros H. inversion H. auto. Qed.

(** *** decodeFrameImpl *)

(** A step that reports an error hands back no frame. *)
Lemma decodeFrameImpl_error_no_frame h data st fr nread avail e st' :
  decodeFrameImpl L h data st = Done (fr, nread, avail, Some e) st' ->
  fr = None /\ avail = true.
Proof.
  unfold decodeFrameImpl. intros H. unbind H.
  all: inversion H; auto.
Qed.

(** *** Decode: the empty chunk *)

(** C10. [Decode] on an empty chunk returns no frame and a nil error, and
    the state is the one it started in: the native world, Go memory, the
    live resources and the list of library calls made are all unchanged,
    so neither the parser nor any other library function was called. *)
Theorem Decode_empty_chunk fuel h (st : State World) :
  Decode L fuel h [] st = Done ([], None) st.
Proof. destruct fuel; reflexivity. Qed.

(** *** Decode: one iteration *)

Lemma Decode_loop_step fuel h data frames st fr nread avail err st' :
  data <> [] ->
  decodeFrameImpl L h data st = Done (fr, nread, avail, err) st' ->
  Decode_loop L (S fuel) h data frames st =
    if not_nil err && (nread <? 0) then Done ([], err) st'
    else
      bind (slice_from data nread)
        (fun data' =>
           Decode_loop L fuel h data'
             (match avail, fr with
              | true, Some f => frames ++ [f]
              | _, _ => frames
              end)) st'.
Proof.
  intros Hne Hstep. destruct data as [|b data]; [congruence|].
  cbn [Decode_loop]. rewrite (bind_Done _ _ _ _ _ Hstep).
  destruct (not_nil err && (nread <? 0)); reflexivity.
Qed.

Lemma slice_from_in_range data nread (st : State World) :
  0 <= nread <= Z.of_nat (length data) ->
  slice_from data nread st = Done (drop (Z.to_nat nread) data) st.
Proof.
  intros [H1 H2]. unfold slice_from.
  apply Z.leb_le in H1, H2. rewrite H1, H2. reflexivity.
Qed.

(** C1 (amended). When the step of an iteration fails and the parser's
    byte count is negative, [Decode] stops there, in the state the step
    left, and returns the error with a nil frame list, whatever frames
    the call had assembled before. *)
Theorem Decode_aborts_on_negative_progress
    fuel h data frames st fr nread avail e st' :
  data <> [] ->
  decodeFrameImpl L h data st = Done (fr, nread, avail, Some e) st' ->
  nread < 0 ->
  Decode_loop L (S fuel) h data frames st = Done ([], Some e) st'.
Proof.
  intros Hne Hstep Hneg.
  rewrite (Decode_loop_step _ _ _ _ _ _ _ _ _ _ Hne Hstep).
  apply Z.ltb_lt in Hneg. cbn [not_nil andb]. rewrite Hneg. reflexivity.
Qed.

(** C2 (amended). When the step of an iteration fails and the parser's
    byte count is within the remainder, the error is dropped: the unit
    gives no frame, the cursor moves on by the count, and the call goes on
    as if nothing had failed; if that unit ended the chunk, [Decode]
    returns the frames assembled so far with a nil error. *)
Theorem Decode_drops_unit_failure
    fuel h data frames st fr nread avail e st' :
  data <> [] ->
  decodeFrameImpl L h data st = Done (fr, nread, avail, Some e) st' ->
  0 <= nread <= Z.of_nat (length data) ->
  Decode_loop L (S fuel) h data frames st =
    Decode_loop L fuel h (drop (Z.to_nat nread) data) frames st' /\
  (nread = Z.of_nat (length data) ->
   Decode_loop L (S fuel) h data frames st = Done (frames, None) st').
Proof.
  intros Hne Hstep Hin.
  destruct (decodeFrameImpl_error_no_frame _ _ _ _ _ _ _ _ Hstep) as [-> ->].
  assert (Heq : Decode_loop L (S fuel) h data frames st =
                Decode_loop L fuel h (drop (Z.to_nat nread) data) frames st').
  { rewrite (Decode_loop_step _ _ _ _ _ _ _ _ _ _ Hne Hstep).
    replace (nread <? 0) with false by (symmetry; apply Z.ltb_ge; lia).
    cbn [not_nil andb]. unfold bind.
    rewrite (slice_from_in_range _ _ _ Hin). reflexivity. }
  split; [exact Heq|].
  intros ->. rewrite Heq, Nat2Z.id, drop_all.
  destruct fuel; reflexivity.
Qed.

(** *** Decode: chunks without a complete unit *)

(** The state after the parser call of an iteration. *)
Lemma parse_runs h data (st : State World) :
  parse L h data (Z.of_nat (length data)) st =
    Done (snd (parser_call L h data (world st)))
      (mkState (fst (parser_call L h data (world st)))
         (goheap st) (live st) (calls st ++ [FnAvParserParse2])).
Proof.
  unfold parse, call, parser_call.
  destruct (AvParserParse2 _ _ _ _ _ _ _ _ _ _); reflexivity.
Qed.

Lemma decodeFrameImpl_after_parse h data :
  decodeFrameImpl L h data =
    bind (parse L h data (Z.of_nat (length data))) (after_parse L h).
Proof. reflexivity. Qed.

(** With an empty packet after the parser call, the step is over: no
    decode, no conversion, no frame, no error. *)
Lemma decodeFrameImpl_no_unit h data (st : State World) w1 nread :
  pkt h <> NULL ->
  parser_call L h data (world st) = (w1, nread) ->
  PktSize L (pkt h) w1 <= 0 ->
  decodeFrameImpl L h data st =
    Done (None, nread, false, None)
      (mkState w1 (goheap st) (live st) (calls st ++ [FnAvParserParse2])).
Proof.
  intros Hpkt Hparse Hsize.
  rewrite decodeFrameImpl_after_parse. unfold bind.
  rewrite parse_runs, Hparse. cbn [fst snd].
  unfold after_parse, isFrameAvailable, field, bind, read, ret.
  apply Z.eqb_neq in Hpkt. rewrite Hpkt. cbn [world].
  replace (0 <? PktSize L (pkt h) w1) with false
    by (symmetry; apply Z.ltb_ge; lia).
  reflexivity.
Qed.

Lemma Decode_loop_no_unit h data w :
  pkt h <> NULL ->
  NoUnit L h data w ->
  forall fuel frames (st : State World),
    world st = w -> (length data <= fuel)%nat ->
    exists st',
      Decode_loop L fuel h data frames st = Done (frames, None) st' /\
      goheap st' = goheap st /\ live st' = live st.
Proof.
  intros Hpkt Hno.
  induction Hno as [w|data w w1 nread Hne Hparse Hsize Hn _ IH];
    intros fuel frames st Hw Hfuel.
  - exists st. destruct fuel; auto.
  - subst w. destruct fuel as [|fuel].
    { destruct data; [congruence | cbn in Hfuel; lia]. }
    pose proof (decodeFrameImpl_no_unit _ _ _ _ _ Hpkt Hparse Hsize) as Hstep.
    rewrite (Decode_loop_step _ _ _ _ _ _ _ _ _ _ Hne Hstep).
    cbn [not_nil andb]. unfold bind.
    rewrite slice_from_in_range by lia.
    destruct (IH fuel frames
                (mkState w1 (goheap st) (live st)
                   (calls st ++ [FnAvParserParse2])))
      as (st' & Hrun & Hheap & Hlive);
      [reflexivity | | exists st'; rewrite Hrun; auto].
    rewrite length_drop. lia.
Qed.

(** The parser's byte count is only handed on by the rest of the step. *)
Lemma after_parse_nread h n (st : State World) fr n' avail err st' :
  after_parse L h n st = Done (fr, n', avail, err) st' ->
  n' = n /\
  forall m, after_parse L h m st = Done (fr, m, avail, err) st'.
Proof.
  unfold after_parse, bind, ret. intros H.
  repeat match type of H with
         | context [match ?x with _ => _ end] =>
             destruct x eqn:?; try discriminate H
         end.
  all: inversion H; subst; split; [reflexivity|]; intros m; reflexivity.
Qed.

Lemma decodeFrameImpl_inv h data (st : State World) fr n avail err st' :
  decodeFrameImpl L h data st = Done (fr, n, avail, err) st' ->
  n = (parser_call L h data (world st)).2 /\
  after_parse L h n
    (mkState (parser_call L h data (world st)).1 (goheap st) (live st)
       (calls st ++ [FnAvParserParse2]))
    = Done (fr, n, avail, err) st'.
Proof.
  rewrite decodeFrameImpl_after_parse. unfold bind. rewrite parse_runs.
  intros H. destruct (after_parse_nread _ _ _ _ _ _ _ _ H) as [-> _].
  split; [reflexivity | exact H].
Qed.

(** The functions of the package other than [Decode] have no loop. *)
Lemma loop_free_bind {A B} (m : M World A) (k : A -> M World B) :
  loop_free m -> (forall a, loop_free (k a)) -> loop_free (bind m k).
Proof.
  intros Hm Hk st. unfold bind. specialize (Hm st).
  destruct (m st) as [a st'|msg st'|]; [apply Hk | discriminate | congruence].
Qed.

Lemma loop_free_call {A} f (op : World -> World * A) : loop_free (call f op).
Proof. intros st. unfold call. destruct (op (world st)). discriminate. Qed.

Lemma loop_free_field {A} p (g : ptr -> World -> A) :
  loop_free (@field World A p g).
Proof. intros st. unfold field. destruct (p =? NULL); discriminate. Qed.

(** Shows that a computation written with the primitives has no loop. *)
Ltac straight :=
  repeat
    first
      [ apply loop_free_call
      | apply loop_free_field
      | apply loop_free_bind; [|intros ?]
      | match goal with
        | |- loop_free (match ?x with _ => _ end) => destruct x
        end
      | intros ?; discriminate ].

Lemma loop_free_decodeFrameImpl h data : loop_free (decodeFrameImpl L h data).
Proof.
  unfold decodeFrameImpl, parse, isFrameAvailable, decodeFrame, PredictSize,
    Convert, newFrame, frameData, GoBytes, alloc, free, call_.
  straight.
Qed.

(** Over a parser that always takes at least one byte, an iteration per
    byte of the chunk is enough for the loop of [Decode]. *)
Lemma Decode_loop_terminates h :
  parser_progresses L h ->
  forall fuel data frames (st : State World),
    (length data <= fuel)%nat ->
    Decode_loop L fuel h data frames st <> OutOfFuel.
Proof.
  intros Hprog fuel.
  induction fuel as [|fuel IH]; intros data frames st Hfuel.
  { destruct data; [discriminate | cbn in Hfuel; lia]. }
  destruct data as [|b data]; [discriminate|].
  cbn [Decode_loop]. unfold bind at 1.
  pose proof (loop_free_decodeFrameImpl h (b :: data) st) as Hstep.
  destruct (decodeFrameImpl L h (b :: data) st)
    as [[[[fr n] avail] err] st1|msg st1|] eqn:Hs;
    [|discriminate|congruence].
  destruct (not_nil err && (n <? 0)); [discriminate|].
  unfold bind, slice_from.
  destruct ((0 <=? n) && (n <=? Z.of_nat (length (b :: data)))) eqn:Hin;
    [|discriminate].
  unfold ret. apply IH.
  apply decodeFrameImpl_inv in Hs as [Hn _].
  pose proof (Hprog (world st) (b :: data) ltac:(discriminate)) as Hpos.
  rewrite <- Hn in Hpos. rewrite length_drop. cbn [length] in *. lia.
Qed.

(** C6 (amended). In a chunk where every parser call takes at least one
    byte of what remains and completes no unit, [Decode] returns within
    as many iterations as the chunk has bytes, with no frame and no error,
    and leaves Go memory and the live resources as they were.  A parser
    call that takes zero bytes and completes no unit does not end the
    scan: the next iteration calls the parser on the same remainder.
    And over a parser that always takes at least one byte, every [Decode]
    call comes to an end within as many iterations as the chunk has
    bytes. *)
Theorem Decode_no_unit_returns_empty h data (st : State World) :
  pkt h <> NULL ->
  (NoUnit L h data (world st) ->
   exists st',
     Decode L (length data) h data st = Done ([], None) st' /\
     goheap st' = goheap st /\ live st' = live st) /\
  (forall fuel frames w1,
     data <> [] ->
     parser_call L h data (world st) = (w1, 0) ->
     PktSize L (pkt h) w1 <= 0 ->
     Decode_loop L (S fuel) h data frames st =
       Decode_loop L fuel h data frames
         (mkState w1 (goheap st) (live st) (calls st ++ [FnAvParserParse2]))) /\
  (parser_progresses L h ->
   Decode L (length data) h data st <> OutOfFuel).
Proof.
  intros Hpkt. split; [|split].
  - intros Hno.
    apply (Decode_loop_no_unit _ _ _ Hpkt Hno); [reflexivity | lia].
  - intros fuel frames w1 Hne Hparse Hsize.
    pose proof (decodeFrameImpl_no_unit _ _ _ _ _ Hpkt Hparse Hsize) as Hstep.
    rewrite (Decode_loop_step _ _ _ _ _ _ _ _ _ _ Hne Hstep).
    cbn [not_nil andb]. unfold bind.
    rewrite slice_from_in_range by lia. reflexivity.
  - intros Hprog. apply (Decode_loop_terminates h Hprog). lia.
Qed.

(** Takes every returned run among the hypotheses apart, down to what
    the library answered and how the bookkeeping moved. *)
Ltac inv_run :=
  repeat
    match goal with
    | H : bind _ _ _ = Done _ _ |- _ =>
        apply bind_Done_inv in H as (? & ? & ? & H)
    | H : ret _ _ = Done _ _ |- _ => apply ret_inv in H as [? ?]
    | H : field _ _ _ = Done _ _ |- _ => apply field_inv in H as (? & ? & ?)
    | H : call _ _ _ = Done _ _ |- _ => apply call_inv in H as (? & ? & ? & ?)
    | H : call_ _ _ _ = Done _ _ |- _ => apply call__inv in H as (? & ? & ? & ?)
    | H : alloc _ _ _ _ = Done _ _ |- _ => apply alloc_inv in H as (? & ? & ? & ?)
    | H : free _ _ _ _ _ = Done _ _ |- _ => apply free_inv in H as (? & ? & ? & ?)
    | H : acquire _ _ _ = Done _ _ |- _ =>
        apply acquire_inv in H as (? & ? & ? & ?)
    | H : release _ _ _ = Done _ _ |- _ =>
        apply release_inv in H as (? & ? & ? & ?)
    end.

(** *** The frames of a step *)

Lemma C_int_go_int_small z : 0 <= z < 2 ^ 31 -> C_int (go_int z) = z.
Proof.
  intros Hz. unfold C_int, go_int, wrap_signed.
  change (2 ^ (64 - 1)) with 9223372036854775808.
  change (2 ^ 64) with 18446744073709551616.
  change (2 ^ (32 - 1)) with 2147483648.
  change (2 ^ 32) with 4294967296.
  change (2 ^ 31) with 2147483648 in Hz.
  rewrite (Z.mod_small (z + 9223372036854775808)) by lia.
  rewrite Z.mod_small by lia. lia.
Qed.

Lemma GoBytes_inv p n (st : State World) a st' :
  GoBytes L p n st = Done a st' ->
  0 <= n /\ a = length (goheap st) /\
  exists bytes,
    length bytes = Z.to_nat n /\
    goheap st' = goheap st ++ [bytes] /\
    world st' = world st /\ live st' = live st /\ calls st' = calls st.
Proof.
  unfold GoBytes. destruct (n <? 0) eqn:Hn; [discriminate|].
  apply Z.ltb_ge in Hn. intros H.
  apply bind_Done_inv in H as (bytes & st1 & Hread & H).
  unfold read in Hread. inversion Hread; subst st1.
  apply go_alloc_inv in H as (-> & Hw & Hh & Hl & Hc).
  repeat split; auto. exists bytes. repeat split; auto.
  subst bytes. rewrite length_map, length_seq. reflexivity.
Qed.

Lemma newFrame_inv fr (st : State World) f st' :
  newFrame L fr st = Done f st' ->
  Width f = FrameWidth L fr (world st) /\
  Height f = FrameHeight L fr (world st) /\
  Stride f = Linesize0 L fr (world st) /\
  Data f = length (goheap st) /\
  0 <= C_int (go_int (Stride f * Height f)) /\
  exists bytes,
    length bytes = Z.to_nat (C_int (go_int (Stride f * Height f))) /\
    goheap st' = goheap st ++ [bytes] /\
    world st' = world st /\ live st' = live st /\ calls st' = calls st.
Proof.
  unfold newFrame, frameData. intros H. inv_run. simplify_eq.
  match goal with
  | Hg : GoBytes _ _ _ _ = Done _ _ |- _ =>
      apply GoBytes_inv in Hg as (? & ? & bytes & ? & ? & ? & ? & ?)
  end.
  cbn [Width Height Stride Data]. repeat split; auto.
  exists bytes. repeat split; auto.
Qed.

Lemma Convert_inv c ctx fr buf (st : State World) rgb st' :
  Convert L c ctx fr buf st = Done (rgb, None) st' ->
  rgb = framergb c /\ goheap st' = goheap st /\
  exists wd ht sws w w1 w2 sz,
    AvSetFrame L (framergb c) wd ht (pixFmt c) w = (w1, None) /\
    AvpictureFill L (framergb c) buf (pixFmt c) wd ht w1 = (w2, sz) /\
    world st' = SwsScale2 L sws fr 0 ht (framergb c) w2.
Proof.
  unfold Convert. intros H.
  do 3 (apply bind_Done_inv in H as (? & ? & ? & H)).
  apply bind_Done_inv in H as (sws & st1 & Hsws & H).
  destruct (ctx =? NULL); [apply ret_inv in H as [H _]; discriminate H|].
  apply bind_Done_inv in H as (err & ? & Hset & H).
  destruct err as [e|]; [apply ret_inv in H as [H _]; discriminate H|].
  assert (Hheap : goheap st1 = goheap st).
  { destruct (conv_context c =? NULL); inv_run; simplify_eq; congruence. }
  inv_run. simplify_eq.
  split; [reflexivity|]. split; [congruence|].
  repeat eexists; eauto.
Qed.

Lemma Convert_heap c ctx fr buf (st : State World) r st' :
  Convert L c ctx fr buf st = Done r st' -> goheap st' = goheap st.
Proof.
  unfold Convert. intros H.
  do 3 (apply bind_Done_inv in H as (? & ? & ? & H)).
  apply bind_Done_inv in H as (sws & st1 & Hsws & H).
  assert (Hheap : goheap st1 = goheap st).
  { destruct (conv_context c =? NULL); inv_run; simplify_eq; congruence. }
  destruct (ctx =? NULL); [inv_run; simplify_eq; congruence|].
  apply bind_Done_inv in H as ([e|] & ? & Hset & H);
    inv_run; simplify_eq; congruence.
Qed.

Lemma decodeFrame_heap h (st : State World) r st' :
  decodeFrame L h st = Done r st' -> goheap st' = goheap st.
Proof.
  unfold decodeFrame. intros H.
  apply bind_Done_inv in H as ([nread got] & ? & Hcall & H).
  destruct ((nread <? 0) || (got =? 0)); inv_run; simplify_eq; congruence.
Qed.

(** What a step leaves in Go memory: nothing when it hands back no
    frame, and otherwise one new backing array, the frame's, whose length
    is the [C.int] the source computes from the converted picture. *)
Lemma decodeFrameImpl_heap h data (st : State World) fr nread avail err st' :
  decodeFrameImpl L h data st = Done (fr, nread, avail, err) st' ->
  match fr with
  | None => goheap st' = goheap st
  | Some f =>
      Data f = length (goheap st) /\
      0 <= C_int (go_int (Stride f * Height f)) /\
      (exists bytes,
         goheap st' = goheap st ++ [bytes] /\
         length bytes = Z.to_nat (C_int (go_int (Stride f * Height f)))) /\
      (packed_rgb_output L -> rgb24_target L (pixFmt (conv h)) ->
       3 * Width f <= Stride f /\ 0 <= Stride f * Height f < 2 ^ 31)
  end.
Proof.
  unfold decodeFrameImpl. intros H.
  apply bind_Done_inv in H as (n & st1 & Hparse & H).
  apply bind_Done_inv in H as (av & st2 & Havail & H).
  assert (Hh2 : goheap st2 = goheap st).
  { unfold parse, isFrameAvailable in *. inv_run. simplify_eq. congruence. }
  destruct (negb av).
  { apply ret_inv in H as [H ->]. simplify_eq. exact Hh2. }
  apply bind_Done_inv in H as ([p [e|]] & st3 & Hdec & H).
  { apply ret_inv in H as [H ->]. simplify_eq.
    rewrite (decodeFrame_heap _ _ _ _ Hdec). exact Hh2. }
  apply decodeFrame_heap in Hdec.
  apply bind_Done_inv in H as (wd & st4 & Hwd & H).
  apply bind_Done_inv in H as (ht & st5 & Hht & H).
  apply bind_Done_inv in H as (predicted & st6 & Hpred & H).
  apply bind_Done_inv in H as (buffer & st7 & Hbuf & H).
  apply bind_Done_inv in H as ([rgb [e|]] & st8 & Hconv & H).
  { pose proof (Convert_heap _ _ _ _ _ _ _ Hconv) as Hh8.
    unfold PredictSize in Hpred. inv_run. simplify_eq. congruence. }
  apply Convert_inv in Hconv
    as (-> & Hh8 & wd' & ht' & sws & w & w1 & w2 & sz &
        Hset & Hfill & Hw8).
  apply bind_Done_inv in H as (f & st9 & Hnew & H).
  apply newFrame_inv in Hnew
    as (HW & HH & HS & HD & Hsize & bytes & Hlen & Hh9 & Hw9 & _).
  assert (Hh7 : goheap st7 = goheap st).
  { unfold PredictSize in Hpred. inv_run. simplify_eq. congruence. }
  inv_run. simplify_eq.
  split; [congruence|]. split; [exact Hsize|].
  split; [exists bytes; split; [congruence | exact Hlen]|].
  intros Hpacked Htarget.
  specialize (Hpacked _ _ _ _ _ sws p _ _ _ _ Htarget Hset Hfill).
  cbv zeta in Hpacked. rewrite <- Hw8, <- HW, <- HS, <- HH in Hpacked.
  exact Hpacked.
Qed.

(** *** Invariants of the loop of Decode *)

(** A property of the frame list and the state that every step keeps,
    whether the step's frame is appended or the list is dropped on the
    way out, holds of what [Decode] returns. *)
Lemma Decode_loop_invariant (I : list Frame -> State World -> Prop) h :
  (forall data st fr nread avail err st' acc,
     I acc st ->
     decodeFrameImpl L h data st = Done (fr, nread, avail, err) st' ->
     I [] st' /\
     I (match avail, fr with
        | true, Some f => acc ++ [f]
        | _, _ => acc
        end) st') ->
  forall fuel data acc st frames err st',
    I acc st ->
    Decode_loop L fuel h data acc st = Done (frames, err) st' ->
    I frames st'.
Proof.
  intros Hstep fuel.
  induction fuel as [|fuel IH]; intros data acc st frames err st' HI Hrun.
  - destruct data; [|discriminate Hrun].
    apply ret_inv in Hrun as [Hrun ->]. simplify_eq. exact HI.
  - destruct data as [|b data].
    { apply ret_inv in Hrun as [Hrun ->]. simplify_eq. exact HI. }
    cbn [Decode_loop] in Hrun.
    apply bind_Done_inv in Hrun as ([[[fr nread] avail] e] & st1 & Hs & Hrun).
    destruct (Hstep _ _ _ _ _ _ _ _ HI Hs) as [Hnil Hacc].
    destruct (not_nil e && (nread <? 0)).
    + apply ret_inv in Hrun as [Hrun ->]. simplify_eq. exact Hnil.
    + apply bind_Done_inv in Hrun as (data' & st2 & Hslice & Hrun).
      unfold slice_from in Hslice.
      destruct ((0 <=? nread) && (nread <=? Z.of_nat (length (b :: data))));
        [|discriminate Hslice].
      apply ret_inv in Hslice as [-> ->].
      exact (IH _ _ _ _ _ _ Hacc Hrun).
Qed.

(** C5. Every frame that [Decode] returns satisfies the invariant of
    [Frame] in the Go memory the call leaves: the length of its [Data] is
    [Stride * Height], and [Stride >= Width * 3].  This is for a decoder
    whose target format is one of the two 24-bit formats, over a library
    whose converter output for them is a packed picture of fewer than
    2^31 bytes. *)
Theorem Decode_frames_well_formed fuel h data (st : State World) frames err st' :
  packed_rgb_output L ->
  rgb24_target L (pixFmt (conv h)) ->
  Decode L fuel h data st = Done (frames, err) st' ->
  Forall (frame_wf (goheap st')) frames.
Proof.
  intros Hpacked Htarget Hrun.
  refine (Decode_loop_invariant
            (fun acc s => Forall (frame_wf (goheap s)) acc) h _
            fuel data [] st frames err st' _ Hrun); [|constructor].
  clear - Hpacked Htarget.
  intros data st fr nread avail err st' acc Hacc Hstep.
  split; [constructor|].
  pose proof (decodeFrameImpl_heap _ _ _ _ _ _ _ _ Hstep) as Hheap.
  destruct fr as [f|].
  - destruct Hheap as (HD & Hsize & (bytes & Hh & Hlen) & Hgeom).
    assert (Hold : Forall (frame_wf (goheap st')) acc).
    { eapply Forall_impl; [exact Hacc|].
      intros g (bs & Hg & Hrest). exists bs. split; [|exact Hrest].
      rewrite Hh. apply lookup_app_l_Some. exact Hg. }
    destruct avail; [|exact Hold].
    apply Forall_app. split; [exact Hold|]. constructor; [|constructor].
    destruct (Hgeom Hpacked Htarget) as [Hstride Hfit].
    exists bytes. split; [|split].
    + rewrite Hh, HD. apply list_lookup_middle. reflexivity.
    + rewrite Hlen, C_int_go_int_small by exact Hfit. lia.
    + lia.
  - rewrite Hheap. destruct avail; exact Hacc.
Qed.

(** C9. The [Data] of every frame that [Decode] returns is a backing
    array of Go memory allocated during that call, by the copy that
    [C.GoBytes] makes (the decoder's scratch pictures and buffers are
    native memory, in the world, and no frame points there): it did not
    exist before the call, no two frames of the call share one, the call
    changes no array that existed before it (so a frame kept from an
    earlier call reads the same afterwards), and writing into the array
    of one frame leaves the array of any other as it was. *)
Theorem Decode_frames_own_their_data
    fuel h data (st : State World) frames err st' :
  Decode L fuel h data st = Done (frames, err) st' ->
  (exists new, goheap st' = goheap st ++ new) /\
  Forall (fun f => (length (goheap st) <= Data f < length (goheap st'))%nat)
    frames /\
  NoDup (Data <$> frames) /\
  (forall a bytes, goheap st !! a = Some bytes -> goheap st' !! a = Some bytes) /\
  (forall i j fi fj bytes,
     frames !! i = Some fi -> frames !! j = Some fj -> i <> j ->
     <[Data fi := bytes]> (goheap st') !! Data fj = goheap st' !! Data fj).
Proof.
  intros Hrun.
  assert (Hinv :
    (exists new, goheap st' = goheap st ++ new) /\
    Forall (fun f => (length (goheap st) <= Data f < length (goheap st'))%nat)
      frames /\
    NoDup (Data <$> frames)).
  { refine (Decode_loop_invariant
              (fun acc s =>
                 (exists new, goheap s = goheap st ++ new) /\
                 Forall (fun f =>
                    (length (goheap st) <= Data f < length (goheap s))%nat) acc /\
                 NoDup (Data <$> acc)) h _
              fuel data [] st frames err st' _ Hrun).
    - clear. intros data s fr nread avail err s' acc (Hext & Hbnd & Hnd) Hstep.
      pose proof (decodeFrameImpl_heap _ _ _ _ _ _ _ _ Hstep) as Hheap.
      destruct Hext as [new Hext].
      assert (Hext' : exists new', goheap s' = goheap st ++ new').
      { destruct fr as [f|].
        - destruct Hheap as (_ & _ & (bytes & Hh & _) & _).
          exists (new ++ [bytes]). rewrite Hh, Hext, app_assoc. reflexivity.
        - exists new. congruence. }
      split; [split; [exact Hext'|split; constructor]|].
      split; [exact Hext'|].
      assert (Hgrow : (length (goheap s) <= length (goheap s'))%nat).
      { destruct fr as [f|].
        - destruct Hheap as (_ & _ & (bytes & Hh & _) & _).
          rewrite Hh, length_app. lia.
        - rewrite Hheap. lia. }
      assert (Hold : Forall (fun f =>
                (length (goheap st) <= Data f < length (goheap s'))%nat) acc).
      { eapply Forall_impl; [exact Hbnd|]. cbn. intros. lia. }
      destruct avail, fr as [f|]; try (split; assumption).
      destruct Hheap as (HD & _ & (bytes & Hh & _) & _).
      split.
      + apply Forall_app. split; [exact Hold|].
        constructor; [|constructor].
        rewrite HD, Hh, Hext, !length_app. cbn. lia.
      + rewrite fmap_app. apply NoDup_app. split; [exact Hnd|].
        split; [|apply NoDup_singleton].
        intros a Ha Hin. apply list_elem_of_singleton in Hin. subst a.
        apply list_elem_of_fmap in Ha as (g & Hg & Hin).
        rewrite Forall_forall in Hbnd. specialize (Hbnd g Hin). lia.
    - split; [exists []; rewrite app_nil_r; reflexivity|].
      split; constructor. }
  destruct Hinv as ([new Hext] & Hbnd & Hnd).
  split; [exists new; exact Hext|].
  split; [exact Hbnd|]. split; [exact Hnd|]. split.
  - intros a bytes Ha. rewrite Hext. apply lookup_app_l_Some. exact Ha.
  - intros i j fi fj bytes Hi Hj Hij.
    apply list_lookup_insert_ne. intros Heq. apply Hij.
    eapply NoDup_lookup; [exact Hnd| |].
    + rewrite list_lookup_fmap, Hi. reflexivity.
    + rewrite list_lookup_fmap, Hj. cbn. rewrite Heq. reflexivity.
Qed.

(** *** New *)

Lemma releases_nothing_refl (st : State World) : releases_nothing st st.
Proof.
  split; [exists [] | exists []]; [reflexivity|].
  rewrite app_nil_r. split; [reflexivity | constructor].
Qed.

Lemma releases_nothing_trans (st1 st2 st3 : State World) :
  releases_nothing st1 st2 -> releases_nothing st2 st3 ->
  releases_nothing st1 st3.
Proof.
  intros [[a1 Ha1] (m1 & Hm1 & Hf1)] [[a2 Ha2] (m2 & Hm2 & Hf2)]. split.
  - exists (a2 ++ a1). rewrite Ha2, Ha1, app_assoc. reflexivity.
  - exists (m1 ++ m2). rewrite Hm2, Hm1, app_assoc. split; [reflexivity|].
    apply Forall_app. auto.
Qed.

Lemma releases_nothing_call {A} f (op : World -> World * A) st a st' :
  is_release f = false ->
  call f op st = Done a st' -> releases_nothing st st'.
Proof.
  intros Hf H. apply call_inv in H as (_ & _ & Hl & Hc). split.
  - exists []. exact Hl.
  - exists [f]. split; [exact Hc | repeat constructor; exact Hf].
Qed.

Lemma releases_nothing_call_ f (op : World -> World) st u st' :
  is_release f = false ->
  call_ f op st = Done u st' -> releases_nothing st st'.
Proof. unfold call_. apply releases_nothing_call. Qed.

Lemma releases_nothing_acquire r p (st : State World) u st' :
  acquire r p st = Done u st' -> releases_nothing st st'.
Proof.
  intros H. apply acquire_inv in H as (_ & _ & Hl & Hc). split.
  - destruct (p =? NULL); [exists [] | exists [(r, p)]]; exact Hl.
  - exists []. rewrite app_nil_r. split; [exact Hc | constructor].
Qed.

Lemma releases_nothing_alloc r f (op : World -> World * ptr) st p st' :
  is_release f = false ->
  alloc r f op st = Done p st' -> releases_nothing st st'.
Proof.
  intros Hf H. unfold alloc in H.
  apply bind_Done_inv in H as (q & st1 & Hcall & H).
  apply bind_Done_inv in H as (u & st2 & Hacq & H).
  apply ret_inv in H as [_ ->].
  eapply releases_nothing_trans;
    [eapply releases_nothing_call | eapply releases_nothing_acquire]; eauto.
Qed.

(** Runs [New] (or a part of it) backwards, keeping of every library
    call only that it released nothing. *)
Ltac survey :=
  repeat
    match goal with
    | H : bind _ _ _ = Done _ _ |- _ =>
        apply bind_Done_inv in H as (? & ? & ? & H)
    | H : (if ?b then _ else _) _ = Done _ _ |- _ => destruct b eqn:?
    | H : (match ?x with _ => _ end) _ = Done _ _ |- _ => destruct x eqn:?
    | H : ret _ _ = Done _ _ |- _ => apply ret_inv in H as [? ?]; simplify_eq
    | H : panic _ _ = Done _ _ |- _ => discriminate H
    | H : field _ _ _ = Done _ _ |- _ =>
        apply field_inv in H as (? & ? & ?); simplify_eq
    | H : call _ _ _ = Done _ _ |- _ =>
        apply releases_nothing_call in H; [|reflexivity]
    | H : call_ _ _ _ = Done _ _ |- _ =>
        apply releases_nothing_call_ in H; [|reflexivity]
    | H : alloc _ _ _ _ = Done _ _ |- _ =>
        apply releases_nothing_alloc in H; [|reflexivity]
    | H : acquire _ _ _ = Done _ _ |- _ =>
        apply releases_nothing_acquire in H
    end.

Lemma newConverter_releases_nothing pixelFormat (st : State World) r st' :
  newConverter L pixelFormat st = Done r st' -> releases_nothing st st'.
Proof. unfold newConverter. intros H. survey; assumption. Qed.

Create HintDb nr.
#[local] Hint Resolve releases_nothing_refl releases_nothing_trans : nr.

(** C4 (amended). On every failure path of [New] the caller gets no
    decoder, only the error; and nothing acquired earlier in the call is
    given back before the return: [New] calls no release function, and
    every resource that was live stays live. *)
Theorem New_failure_releases_nothing pxlFmt cpr (st : State World) d e st' :
  New L pxlFmt cpr st = Done (d, Some e) st' ->
  d = None /\ releases_nothing st st'.
Proof.
  unfold New. intros H. survey.
  all: try match goal with
           | Hc : newConverter _ _ _ = Done _ _ |- _ =>
               apply newConverter_releases_nothing in Hc
           end.
  all: split; [reflexivity | eauto 12 with nr].
Qed.

(** A decoder that [New] returns has all its handles, no scaling context
    yet, one of the two target formats, and was asked for one of the two
    compressions. *)
Lemma New_returns_decoder pxlFmt cpr (st : State World) d e st' :
  New L pxlFmt cpr st = Done (Some d, e) st' ->
  e = None /\
  (cpr = H264 L \/ cpr = H265 L) /\
  context d <> NULL /\ parser d <> NULL /\ frame d <> NULL /\
  pkt d <> NULL /\ framergb (conv d) <> NULL /\
  conv_context (conv d) = NULL /\
  rgb24_target L (pixFmt (conv d)).
Proof.
  unfold New, newConverter. intros H.
  repeat
    match goal with
    | H : bind _ _ _ = Done _ _ |- _ =>
        apply bind_Done_inv in H as (? & ? & ? & H)
    | H : (if ?b then _ else _) _ = Done _ _ |- _ => destruct b eqn:?
    | H : (match ?x with _ => _ end) _ = Done _ _ |- _ => destruct x eqn:?
    | H : ret _ _ = Done _ _ |- _ => apply ret_inv in H as [? ?]; simplify_eq
    | H : panic _ _ = Done _ _ |- _ => discriminate H
    end.
  all: repeat match goal with
              | Hb : (_ =? _) = false |- _ => apply Z.eqb_neq in Hb
              | Hb : (_ =? _) = true |- _ => apply Z.eqb_eq in Hb
              end.
  all: cbn [context parser frame pkt conv framergb conv_context pixFmt].
  all: match goal with
       | Hc : negb (_ =? _) && negb (_ =? _) = false |- _ =>
           apply andb_false_iff in Hc as [Hc|Hc];
           apply negb_false_iff, Z.eqb_eq in Hc
       end.
  all: unfold rgb24_target, PixelFormatRGB, PixelFormatBGR in *.
  all: simplify_eq; repeat split; auto.
  all: repeat match goal with
              | Hz : (if ?b then _ else _) = Some _ |- _ => destruct b
              end; simplify_eq; auto.
Qed.

(** Running a primitive forwards. *)
Lemma bind_call {A B} f (op : World -> World * A) (k : A -> M World B) st :
  bind (call f op) k st =
    k (op (world st)).2
      (mkState (op (world st)).1 (goheap st) (live st) (calls st ++ [f])).
Proof. unfold bind, call. destruct (op (world st)); reflexivity. Qed.

Lemma bind_call_ {B} f (op : World -> World) (k : unit -> M World B) st :
  bind (call_ f op) k st =
    k tt (mkState (op (world st)) (goheap st) (live st) (calls st ++ [f])).
Proof. reflexivity. Qed.

Lemma bind_alloc {B} r f (op : World -> World * ptr) (k : ptr -> M World B) st :
  bind (alloc r f op) k st =
    k (op (world st)).2
      (mkState (op (world st)).1 (goheap st)
         (if (op (world st)).2 =? NULL then live st
          else (r, (op (world st)).2) :: live st)
         (calls st ++ [f])).
Proof.
  unfold bind, alloc, call, acquire, ret, bind.
  destruct (op (world st)) as [w p]. cbn. destruct (p =? NULL); reflexivity.
Qed.

Lemma bind_acquire {B} r p (k : unit -> M World B) (st : State World) :
  p <> NULL ->
  bind (acquire r p) k st =
    k tt (mkState (world st) (goheap st) ((r, p) :: live st) (calls st)).
Proof.
  intros Hp. apply Z.eqb_neq in Hp. unfold bind, acquire. rewrite Hp.
  reflexivity.
Qed.

Lemma bind_field {A B} p (g : ptr -> World -> A) (k : A -> M World B) st :
  p <> NULL -> bind (field p g) k st = k (g p (world st)) st.
Proof.
  intros Hp. apply Z.eqb_neq in Hp. unfold bind, field, read. rewrite Hp.
  reflexivity.
Qed.

(** The next library call of a run: its answer gets a name. *)
Ltac forward :=
  first [ rewrite bind_call_ | rewrite bind_call | rewrite bind_alloc ];
  cbn [world goheap live calls];
  try match goal with
      | |- context [mkState (?x).1 _ _ _] =>
          let w' := fresh "w" in
          let a := fresh "a" in
          destruct x as [w' a] eqn:?; cbn [fst snd]
      end.

(** C8 (amended). For a compression other than [H264] and [H265], [New]
    returns no decoder and an error.  The compression is looked at only
    after the library has been asked for a decoder, a context, an open
    codec, a parser, a frame and a packet: the error is "unsupported
    compression" exactly when all of these calls were made and went well,
    and when the library finds no decoder for the value the error is
    "cannot find decoder". *)
Theorem New_rejects_other_compression pxlFmt cpr (st : State World) :
  cpr <> H264 L -> cpr <> H265 L ->
  exists e st',
    New L pxlFmt cpr st = Done (None, Some e) st' /\
    (snd (AvcodecFindDecoder L cpr (AvcodecRegisterAll L (world st))) = NULL ->
     e = "cannot find decoder"%string) /\
    (e = "unsupported compression"%string <->
     calls st' = calls st ++ calls_before_validation).
Proof.
  intros H4 H5. apply Z.eqb_neq in H4, H5.
  unfold New, calls_before_validation.
  forward. forward.
  destruct (a =? NULL) eqn:Hcodec.
  { apply Z.eqb_eq in Hcodec. eexists _, _. split; [reflexivity|].
    cbn [calls]. rewrite <- !app_assoc. cbn [app].
    split; [reflexivity|]. split; [discriminate|].
    intros H. apply app_inv_head in H. discriminate H. }
  assert (Hfound : (w, a).2 <> NULL) by (apply Z.eqb_neq; exact Hcodec).
  assert (Hstop : forall (e : error) (made : list LibFn) (s : State World),
    e <> "unsupported compression"%string ->
    calls s = calls st ++ made ->
    made <> calls_before_validation ->
    exists e' st',
      Done (@None Decoder, Some e) s = Done (None, Some e') st' /\
      ((w, a).2 = NULL -> e' = "cannot find decoder"%string) /\
      (e' = "unsupported compression"%string <->
       calls st' = calls st ++ calls_before_validation)).
  { intros e made s He Hmade Hne. exists e, s. split; [reflexivity|].
    split; [intros Hn; contradiction|]. split; [intros ->; contradiction|].
    rewrite Hmade. intros H. apply app_inv_head in H. contradiction. }
  forward.
  destruct (a0 =? NULL) eqn:Hctx.
  { eapply Hstop; [discriminate | cbn [calls]; rewrite <- !app_assoc;
                                  reflexivity | discriminate]. }
  forward.
  destruct (a1 <? 0).
  { eapply Hstop; [discriminate | cbn [calls]; rewrite <- !app_assoc;
                                  reflexivity | discriminate]. }
  apply Z.eqb_neq in Hctx. rewrite (bind_acquire _ _ _ _ Hctx).
  cbn [world goheap live calls].
  forward.
  destruct (a2 =? NULL).
  { eapply Hstop; [discriminate | cbn [calls]; rewrite <- !app_assoc;
                                  reflexivity | discriminate]. }
  forward.
  destruct (a3 =? NULL).
  { eapply Hstop; [discriminate | cbn [calls]; rewrite <- !app_assoc;
                                  reflexivity | discriminate]. }
  forward.
  destruct (a4 =? NULL) eqn:Hpkt.
  { eapply Hstop; [discriminate | cbn [calls]; rewrite <- !app_assoc;
                                  reflexivity | discriminate]. }
  apply Z.eqb_neq in Hpkt.
  forward. rewrite (bind_field _ _ _ _ Hpkt). forward.
  rewrite H4, H5. cbn [negb andb].
  eexists _, _. split; [reflexivity|].
  split; [intros Hn; contradiction|].
  cbn [calls]. rewrite <- !app_assoc. split; reflexivity.
Qed.

(** *** Convert *)

(** C7 (the code against the claim). [Convert] does not look at the
    scaling context it has just asked for: the nil test that follows is on
    [context], the codec context, whose fields were read three lines
    earlier.  When the library cannot build the scaling context and
    [AvSetFrame] raises no error, [Convert] returns the converter's picture
    and a nil error, after calling [SwsScale2] with the nil context. *)
Theorem Convert_ignores_failed_scaling_context c ctx fr buf (st : State World) w1 w2 :
  let wd := CtxWidth L ctx (world st) in
  let ht := CtxHeight L ctx (world st) in
  let fmt := CtxPixFmt L ctx (world st) in
  ctx <> NULL ->
  conv_context c = NULL ->
  SwsGetcontext L wd ht fmt wd ht (pixFmt c) (SWS_BILINEAR L) (world st)
    = (w1, NULL) ->
  AvSetFrame L (framergb c) wd ht (pixFmt c) w1 = (w2, None) ->
  exists st',
    Convert L c ctx fr buf st = Done (framergb c, None) st' /\
    world st' =
      SwsScale2 L NULL fr 0 ht (framergb c)
        (AvpictureFill L (framergb c) buf (pixFmt c) wd ht w2).1.
Proof.
  intros wd ht fmt Hctx Hconv Hsws Hset. unfold Convert.
  rewrite !(bind_field _ _ _ _ Hctx). rewrite Hconv. cbn [Z.eqb NULL].
  fold wd ht fmt.
  rewrite bind_alloc, Hsws. cbn [fst snd world goheap live calls].
  apply Z.eqb_neq in Hctx. rewrite Hctx.
  rewrite bind_call. cbn [world goheap live calls]. rewrite Hset.
  cbn [fst snd]. rewrite bind_call. cbn [world goheap live calls].
  rewrite bind_call_. cbn [world goheap live calls].
  eexists. split; reflexivity.
Qed.

(** *** Runs from states that are alike *)

Section Alike.

Variable U : World -> World -> Prop.














Hypothesis HU : step_congruence L U.



End Alike.

(** *** Decode over a parser that stays within the chunk *)

Lemma after_parse_pkt h n (st : State World) r st' :
  after_parse L h n st = Done r st' -> pkt h <> NULL.
Proof.
  unfold after_parse, isFrameAvailable. intros H.
  apply bind_Done_inv in H as (? & ? & Hav & _).
  apply bind_Done_inv in Hav as (? & ? & Hf & _).
  apply field_inv in Hf. tauto.
Qed.

Section InBounds.

Variable h : Decoder.
Hypothesis Hbounds : parser_in_bounds L h.

Lemma Decode_loop_step_in_bounds
    fuel data frames (st : State World) fr n avail err st' :
  data <> [] ->
  decodeFrameImpl L h data st = Done (fr, n, avail, err) st' ->
  0 <= n <= Z.of_nat (length data) /\
  Decode_loop L (S fuel) h data frames st =
    Decode_loop L fuel h (drop (Z.to_nat n) data)
      (match avail, fr with
       | true, Some f => frames ++ [f]
       | _, _ => frames
       end) st'.
Proof.
  intros Hne Hstep.
  assert (Hn : 0 <= n <= Z.of_nat (length data)).
  { apply decodeFrameImpl_inv in Hstep as [-> _]. apply Hbounds. }
  split; [exact Hn|].
  rewrite (Decode_loop_step _ _ _ _ _ _ _ _ _ _ Hne Hstep).
  replace (n <? 0) with false by (symmetry; apply Z.ltb_ge; lia).
  rewrite andb_false_r. unfold bind.
  rewrite slice_from_in_range by exact Hn. reflexivity.
Qed.

(** With such a parser the frames assembled before an iteration are a
    prefix of what the call returns, and the error is nil. *)
Lemma Decode_loop_acc fuel :
  forall data frames (st : State World),
    Decode_loop L fuel h data frames st =
      match Decode_loop L fuel h data [] st with
      | Done (new, err) st' => Done (frames ++ new, None) st'
      | Panic msg st' => Panic msg st'
      | OutOfFuel => OutOfFuel
      end.
Proof.
  induction fuel as [|fuel IH]; intros data frames st.
  - destruct data; cbn; [rewrite app_nil_r|]; reflexivity.
  - destruct data as [|b data]; [cbn; rewrite app_nil_r; reflexivity|].
    destruct (decodeFrameImpl L h (b :: data) st)
      as [[[[fr n] avail] err] st1|msg st1|] eqn:Hstep.
    + destruct (Decode_loop_step_in_bounds fuel (b :: data) frames
                  _ _ _ _ _ _ ltac:(discriminate) Hstep) as [_ ->].
      destruct (Decode_loop_step_in_bounds fuel (b :: data) []
                  _ _ _ _ _ _ ltac:(discriminate) Hstep) as [_ ->].
      rewrite IH.
      rewrite (IH _ (match avail, fr with
                     | true, Some f => [] ++ [f]
                     | _, _ => []
                     end)).
      destruct (Decode_loop L fuel h _ [] st1) as [[new e] s| |];
        [|reflexivity..].
      destruct avail, fr; cbn [app]; rewrite <- ?app_assoc; reflexivity.
    + cbn [Decode_loop]. unfold bind. rewrite Hstep. reflexivity.
    + cbn [Decode_loop]. unfold bind. rewrite Hstep. reflexivity.
Qed.

Lemma Decode_loop_error_nil fuel data frames (st : State World) r err st' :
  Decode_loop L fuel h data frames st = Done (r, err) st' -> err = None.
Proof.
  rewrite Decode_loop_acc.
  destruct (Decode_loop L fuel h data [] st) as [[new e] s| |];
    [|discriminate..].
  intros H. inversion H. reflexivity.
Qed.

End InBounds.


(** *** Decode over an engine that takes its input as a stream *)



Section Cut.

Variable h : Decoder.
Hypothesis Hbounds : parser_in_bounds L h.

Lemma DecodeChunks_cons_inv fuel chunk rest (st : State World) fs st' :
  DecodeChunks L fuel h (chunk :: rest) st = Done fs st' ->
  exists fs1 e st1 fs2,
    Decode L fuel h chunk st = Done (fs1, e) st1 /\
    DecodeChunks L fuel h rest st1 = Done fs2 st' /\
    fs = fs1 ++ fs2.
Proof.
  cbn [DecodeChunks]. intros H.
  apply bind_Done_inv in H as ([fs1 e] & st1 & H1 & H).
  apply bind_Done_inv in H as (fs2 & st2 & H2 & H).
  apply ret_inv in H as [-> ->]. eauto 8.
Qed.

Lemma DecodeChunks_cons fuel chunk rest (st : State World) fs1 e st1 fs2 st' :
  Decode L fuel h chunk st = Done (fs1, e) st1 ->
  DecodeChunks L fuel h rest st1 = Done fs2 st' ->
  DecodeChunks L fuel h (chunk :: rest) st = Done (fs1 ++ fs2) st'.
Proof.
  intros H1 H2. cbn [DecodeChunks]. unfold bind. rewrite H1, H2. reflexivity.
Qed.


Lemma DecodeChunks_one fuel data (st : State World) fs st' :
  DecodeChunks L fuel h [data] st = Done fs st' <->
  exists e, Decode L fuel h data st = Done (fs, e) st'.
Proof.
  split.
  - intros H.
    apply DecodeChunks_cons_inv in H as (fs1 & e & st1 & fs2 & H1 & H2 & ->).
    apply ret_inv in H2 as [-> ->]. rewrite app_nil_r. eauto.
  - intros [e H]. rewrite <- (app_nil_r fs).
    eapply DecodeChunks_cons; [exact H | reflexivity].
Qed.

(** *** The caller's loop, one parser call at a time *)





(** *** Two ways of cutting the same bytes *)

Variables Sim Unit : World -> list byte -> World -> list byte -> Prop.
Hypothesis Hpkt : pkt h <> NULL.
Hypothesis Hci : cut_independent L h Sim Unit.



End Cut.


(** *** More about New *)

(** Rewrites with everything known about the bookkeeping of the states
    of a run. *)
Ltac chain :=
  repeat match goal with
         | H : live _ = _ |- _ => rewrite H
         | H : calls _ = _ |- _ => rewrite H
         | H : goheap _ = _ |- _ => rewrite H
         | H : (_ =? _) = _ |- _ => rewrite H
         end.

(** What a successful [New] has done. *)
Lemma New_success_inv pxlFmt cpr (st : State World) d e st' :
  New L pxlFmt cpr st = Done (Some d, e) st' ->
  e = None /\
  (cpr = H264 L \/ cpr = H265 L) /\
  (context d <> NULL /\ parser d <> NULL /\ frame d <> NULL /\
   pkt d <> NULL /\ framergb (conv d) <> NULL) /\
  conv_context (conv d) = NULL /\
  pixFmt (conv d) = pxlFmt /\ rgb24_target L pxlFmt /\
  live st' = decoder_resources d ++ live st /\
  calls st' = calls st ++ calls_of_New /\
  goheap st' = goheap st.
Proof.
  unfold New, newConverter. intros H.
  repeat
    match goal with
    | H : bind _ _ _ = Done _ _ |- _ =>
        apply bind_Done_inv in H as (? & ? & ? & H)
    | H : (if ?b then _ else _) _ = Done _ _ |- _ => destruct b eqn:?
    | H : (match ?x with _ => _ end) _ = Done _ _ |- _ => destruct x eqn:?
    | H : ret _ _ = Done _ _ |- _ => apply ret_inv in H as [? ?]; simplify_eq
    | H : panic _ _ = Done _ _ |- _ => discriminate H
    end.
  inv_run. simplify_eq.
  match goal with
  | Hc : negb (_ =? _) && negb (_ =? _) = false |- _ =>
      apply andb_false_iff in Hc;
      rewrite !negb_false_iff, !Z.eqb_eq in Hc
  end.
  assert (Hfmt : z = pxlFmt /\ rgb24_target L pxlFmt).
  { unfold rgb24_target, PixelFormatRGB, PixelFormatBGR in *.
    repeat match goal with
           | Hz : (if ?b then _ else _) = Some _ |- _ => destruct b eqn:?
           end; simplify_eq;
    match goal with
    | Hb : (_ =? _) = true |- _ => apply Z.eqb_eq in Hb
    end; subst; auto. }
  destruct Hfmt as [-> Htarget].
  cbn [context parser frame pkt conv framergb conv_context pixFmt
       decoder_resources].
  repeat split; try assumption; try reflexivity;
    try (apply Z.eqb_neq; assumption).
  - chain. reflexivity.
  - chain. unfold calls_of_New. rewrite <- !app_assoc. reflexivity.
  - chain. reflexivity.
Qed.

(** [New] always returns, and what it returns is a decoder or an error
    of its own making, never both and never neither. *)
Lemma New_total pxlFmt cpr (st : State World) :
  exists d e st',
    New L pxlFmt cpr st = Done (d, e) st' /\
    ((exists h, d = Some h /\ e = None) \/
     (d = None /\ exists msg, e = Some msg /\ In msg New_errors)).
Proof.
  assert (Hstop : forall (msg : error) (s : State World),
    In msg New_errors ->
    exists d e st',
      Done (@None Decoder, Some msg) s = Done (d, e) st' /\
      ((exists h, d = Some h /\ e = None) \/
       (d = None /\ exists msg', e = Some msg' /\ In msg' New_errors))).
  { intros msg s Hin. exists None, (Some msg), s. split; [reflexivity|].
    right. split; [reflexivity|]. exists msg. auto. }
  unfold New.
  forward. forward.
  destruct (a =? NULL); [apply Hstop; cbn; tauto|].
  forward.
  destruct (a0 =? NULL) eqn:Hctx; [apply Hstop; cbn; tauto|].
  forward.
  destruct (a1 <? 0); [apply Hstop; cbn; tauto|].
  apply Z.eqb_neq in Hctx. rewrite (bind_acquire _ _ _ _ Hctx).
  cbn [world goheap live calls].
  forward.
  destruct (a2 =? NULL); [apply Hstop; cbn; tauto|].
  forward.
  destruct (a3 =? NULL); [apply Hstop; cbn; tauto|].
  forward.
  destruct (a4 =? NULL) eqn:Hpkt; [apply Hstop; cbn; tauto|].
  apply Z.eqb_neq in Hpkt.
  forward. rewrite (bind_field _ _ _ _ Hpkt). forward.
  destruct (negb (cpr =? H264 L) && negb (cpr =? H265 L));
    [apply Hstop; cbn; tauto|].
  destruct (if pxlFmt =? PixelFormatRGB L then Some (AV_PIX_FMT_RGB24 L)
            else if pxlFmt =? PixelFormatBGR then Some av_PIX_FMT_BGR24
            else None) as [fmt|]; [|apply Hstop; cbn; tauto].
  unfold newConverter. unfold bind at 1. rewrite bind_alloc.
  cbn [world goheap live calls].
  match goal with
  | |- context [(AvFrameAlloc L ?w).2] =>
      destruct (AvFrameAlloc L w) as [w5 a5]
  end.
  cbn [fst snd]. destruct (a5 =? NULL); cbn.
  - apply Hstop. cbn. tauto.
  - eexists _, _, _. split; [reflexivity|]. left. eauto.
Qed.

(** X1. A decoder that [New] returns comes with a nil error, was asked
    for H264 or H265 and for one of the two pixel formats, converts to
    the very format asked for, has all five handles and no scaling
    context yet. *)
Theorem New_decoder_is_complete pxlFmt cpr (st : State World) d e st' :
  New L pxlFmt cpr st = Done (Some d, e) st' ->
  e = None /\
  (cpr = H264 L \/ cpr = H265 L) /\
  rgb24_target L pxlFmt /\ pixFmt (conv d) = pxlFmt /\
  context d <> NULL /\ parser d <> NULL /\ frame d <> NULL /\
  pkt d <> NULL /\ framergb (conv d) <> NULL /\
  conv_context (conv d) = NULL.
Proof.
  intros H. apply New_success_inv in H. tauto.
Qed.

(** X2. A successful [New] makes ten library calls, in the order of the
    source and none of them a release, and the native resources it has
    acquired are those the decoder holds: the context, the open codec, the
    parser, the frame, the packet and the converter's frame. *)
Theorem New_acquires_what_the_decoder_holds
    pxlFmt cpr (st : State World) d e st' :
  New L pxlFmt cpr st = Done (Some d, e) st' ->
  live st' = decoder_resources d ++ live st /\
  calls st' = calls st ++ calls_of_New /\
  Forall (fun f => is_release f = false) calls_of_New.
Proof.
  intros H. apply New_success_inv in H.
  split; [tauto|]. split; [tauto|]. repeat constructor.
Qed.

(** X3. [New] never panics, and it returns either a decoder and a nil
    error or no decoder and one of its eight errors; a decoder is
    returned only for H264 or H265 and for the RGB or the BGR format. *)
Theorem New_returns_decoder_or_error pxlFmt cpr (st : State World) :
  exists d e st',
    New L pxlFmt cpr st = Done (d, e) st' /\
    ((exists h, d = Some h /\ e = None /\
                (cpr = H264 L \/ cpr = H265 L) /\ rgb24_target L pxlFmt) \/
     (d = None /\ exists msg, e = Some msg /\ In msg New_errors)).
Proof.
  destruct (New_total pxlFmt cpr st) as (d & e & st' & Hrun & Hcases).
  exists d, e, st'. split; [exact Hrun|].
  destruct Hcases as [(h & -> & ->)|Hfail]; [left|right; exact Hfail].
  apply New_success_inv in Hrun. exists h. tauto.
Qed.

(** *** More about Decode *)

(** The result of a step has one of three shapes. *)
Lemma decodeFrameImpl_shape h data (st : State World) fr nread avail err st' :
  decodeFrameImpl L h data st = Done (fr, nread, avail, err) st' ->
  (fr = None /\ avail = false /\ err = None) \/
  (fr = None /\ avail = true /\ err <> None) \/
  (fr <> None /\ avail = true /\ err = None).
Proof.
  unfold decodeFrameImpl. intros H. unbind H.
  all: apply ret_inv in H as [H _]; inversion H; subst.
  all: first [left; repeat split; congruence
             |right; left; repeat split; congruence
             |right; right; repeat split; congruence].
Qed.

(** X4. A step of [Decode] hands back the parser's byte count as it
    got it, and a frame exactly when a unit was available and neither the
    decode nor the conversion raised an error: the result is (nil, n,
    false, nil), (nil, n, true, err) or (frame, n, true, nil). *)
Theorem decodeFrameImpl_result h data (st : State World) fr nread avail err st' :
  decodeFrameImpl L h data st = Done (fr, nread, avail, err) st' ->
  nread = (parser_call L h data (world st)).2 /\
  ((fr = None /\ avail = false /\ err = None) \/
   (fr = None /\ avail = true /\ err <> None) \/
   (fr <> None /\ avail = true /\ err = None)).
Proof.
  intros H. split.
  - apply decodeFrameImpl_inv in H. tauto.
  - eapply decodeFrameImpl_shape. exact H.
Qed.

(** An error of the loop of [Decode] is the error of a step with a
    negative byte count, and comes with no frame. *)
Lemma Decode_loop_error fuel h :
  forall data frames (st : State World) fs e st',
    Decode_loop L fuel h data frames st = Done (fs, Some e) st' ->
    fs = [] /\
    exists rest st1 fr nread avail,
      rest <> [] /\
      decodeFrameImpl L h rest st1 = Done (fr, nread, avail, Some e) st' /\
      nread < 0.
Proof.
  induction fuel as [|fuel IH]; intros data frames st fs e st' Hrun.
  { destruct data; discriminate Hrun. }
  destruct data as [|b data]; [discriminate Hrun|].
  cbn [Decode_loop] in Hrun.
  apply bind_Done_inv in Hrun as ([[[fr n] avail] err] & st1 & Hstep & Hrun).
  destruct (not_nil err && (n <? 0)) eqn:Habort.
  - apply ret_inv in Hrun as [Hrun ->]. inversion Hrun; subst.
    apply andb_true_iff in Habort as [_ Hn]. apply Z.ltb_lt in Hn.
    split; [reflexivity|].
    exists (b :: data), st, fr, n, avail. split; [discriminate|]. auto.
  - apply bind_Done_inv in Hrun as (data' & st2 & _ & Hrun).
    exact (IH _ _ _ _ _ _ Hrun).
Qed.

(** X5. [Decode] never returns frames together with an error: a non-nil
    error comes with a nil frame list, and it is the error of a step whose
    byte count was negative. *)
Theorem Decode_error_comes_without_frames
    fuel h data (st : State World) fs e st' :
  Decode L fuel h data st = Done (fs, Some e) st' ->
  fs = [] /\
  exists rest st1 fr nread avail,
    rest <> [] /\
    decodeFrameImpl L h rest st1 = Done (fr, nread, avail, Some e) st' /\
    nread < 0.
Proof. apply Decode_loop_error. Qed.

(** X6. Over a parser that stays within what it is given, [Decode] never
    returns an error and loses no frame: what it returns starts with the
    frames assembled before. *)
Theorem Decode_in_bounds_keeps_frames
    fuel h data frames (st : State World) fs err st' :
  parser_in_bounds L h ->
  Decode_loop L fuel h data frames st = Done (fs, err) st' ->
  err = None /\ exists new, fs = frames ++ new.
Proof.
  intros Hbounds Hrun. rewrite (Decode_loop_acc h Hbounds) in Hrun.
  destruct (Decode_loop L fuel h data [] st) as [[new e] s| |];
    [|discriminate..].
  inversion Hrun; subst. split; [reflexivity | exists new; reflexivity].
Qed.

(** X7. When the byte count of a step is outside the remainder and the
    call is not cut short (no error, or a count past the end), [Decode]
    panics on [data[nread:]]. *)
Theorem Decode_panics_on_count_out_of_range
    fuel h data frames (st : State World) fr nread avail err st' :
  data <> [] ->
  decodeFrameImpl L h data st = Done (fr, nread, avail, err) st' ->
  (nread < 0 /\ err = None) \/ Z.of_nat (length data) < nread ->
  Decode_loop L (S fuel) h data frames st
    = Panic "slice bounds out of range" st'.
Proof.
  intros Hne Hstep Hout.
  rewrite (Decode_loop_step _ _ _ _ _ _ _ _ _ _ Hne Hstep).
  assert (Hgo : not_nil err && (nread <? 0) = false).
  { destruct Hout as [[_ ->]|Hbig]; [reflexivity|].
    replace (nread <? 0) with false by (symmetry; apply Z.ltb_ge; lia).
    apply andb_false_r. }
  rewrite Hgo. unfold bind, slice_from.
  replace ((0 <=? nread) && (nread <=? Z.of_nat (length data))) with false;
    [reflexivity|].
  symmetry. apply andb_false_iff.
  destruct Hout as [[Hneg _]|Hbig];
    [left; apply Z.leb_gt | right; apply Z.leb_gt]; lia.
Qed.

(** The frames of a call that ends without error are, in order, the
    arrays the call has added to Go memory. *)
Lemma Decode_loop_frames_in_order fuel h :
  forall data frames (st : State World) fs st',
    Decode_loop L fuel h data frames st = Done (fs, None) st' ->
    exists new fresh,
      goheap st' = goheap st ++ new /\
      fs = frames ++ fresh /\
      Data <$> fresh = seq (length (goheap st)) (length new).
Proof.
  induction fuel as [|fuel IH]; intros data frames st fs st' Hrun.
  all: destruct data as [|b data];
    [ apply ret_inv in Hrun as [Hrun ->]; inversion Hrun; subst;
      exists [], []; rewrite !app_nil_r; auto
    | ].
  { discriminate Hrun. }
  cbn [Decode_loop] in Hrun.
  apply bind_Done_inv in Hrun as ([[[fr n] avail] err] & st1 & Hstep & Hrun).
  destruct (not_nil err && (n <? 0)) eqn:Habort.
  { apply ret_inv in Hrun as [Hrun _]. inversion Hrun; subst.
    discriminate Habort. }
  apply bind_Done_inv in Hrun as (data' & st2 & Hslice & Hrun).
  assert (st2 = st1) as ->.
  { unfold slice_from in Hslice.
    destruct ((0 <=? n) && (n <=? Z.of_nat (length (b :: data))));
      [|discriminate Hslice].
    apply ret_inv in Hslice. tauto. }
  apply IH in Hrun as (new & fresh & Hheap & Hfs & Hdata).
  pose proof (decodeFrameImpl_heap _ _ _ _ _ _ _ _ Hstep) as Hone.
  destruct (decodeFrameImpl_shape _ _ _ _ _ _ _ _ Hstep)
    as [(-> & -> & _)|[(-> & -> & _)|(Hfr & -> & _)]].
  - exists new, fresh. rewrite Hheap, Hone. rewrite Hone in Hdata. auto.
  - exists new, fresh. rewrite Hheap, Hone. rewrite Hone in Hdata. auto.
  - destruct fr as [f|]; [|congruence].
    destruct Hone as (HD & _ & (bytes & Hh & _) & _).
    exists (bytes :: new), (f :: fresh).
    rewrite Hheap, Hh, <- app_assoc. split; [reflexivity|].
    rewrite Hfs, <- app_assoc. split; [reflexivity|].
    rewrite Hh, length_app in Hdata. cbn [length] in Hdata.
    cbn [fmap list_fmap length seq]. rewrite HD. f_equal.
    rewrite Hdata. f_equal. lia.
Qed.

(** X8. When [Decode] returns without error, it has added to Go memory
    exactly one array per frame returned, and the frames are in the
    order in which they were made: the k-th frame's [Data] is the k-th
    array added. *)
Theorem Decode_frames_in_order fuel h data (st : State World) fs st' :
  Decode L fuel h data st = Done (fs, None) st' ->
  exists new,
    goheap st' = goheap st ++ new /\
    length new = length fs /\
    Data <$> fs = seq (length (goheap st)) (length fs).
Proof.
  intros Hrun.
  apply Decode_loop_frames_in_order in Hrun
    as (new & fresh & Hheap & Hfs & Hdata).
  cbn [app] in Hfs. subst fresh. exists new.
  assert (Hlen : length new = length fs).
  { apply (f_equal length) in Hdata.
    rewrite length_fmap, length_seq in Hdata. congruence. }
  rewrite Hlen in Hdata. auto.
Qed.

(** *** The bookkeeping of Decode *)

Lemma remove_first_absent (x : Resource * ptr) l :
  x ∉ l -> remove_first x l = l.
Proof.
  induction l as [|y l IH]; [reflexivity|]. intros Hx.
  apply not_elem_of_cons in Hx as [Hxy Hl]. cbn.
  destruct (decide (x = y)); [contradiction|]. rewrite IH; auto.
Qed.

Lemma remove_first_scaling_context r p q l :
  r <> ResSwsContext ->
  remove_first (r, p) ((ResSwsContext, q) :: l)
    = (ResSwsContext, q) :: remove_first (r, p) l.
Proof.
  intros Hr. cbn. destruct (decide _) as [E|_]; [|reflexivity].
  inversion E. contradiction.
Qed.

Lemma remove_first_other r p r' q l :
  r <> r' ->
  remove_first (r, p) ((r', q) :: l) = (r', q) :: remove_first (r, p) l.
Proof.
  intros Hr. cbn. destruct (decide _) as [E|_]; [|reflexivity].
  inversion E. contradiction.
Qed.

Lemma remove_first_head (x : Resource * ptr) l : remove_first x (x :: l) = l.
Proof. cbn. destruct (decide (x = x)); [reflexivity | contradiction]. Qed.

(** Takes a returned run apart in every hypothesis, deciding the
    branches by cases. *)
Ltac dissect :=
  repeat
    match goal with
    | H : bind _ _ _ = Done _ _ |- _ =>
        apply bind_Done_inv in H as (? & ? & ? & H)
    | H : (let (_, _) := ?x in _) _ = Done _ _ |- _ => destruct x
    | H : (if ?b then _ else _) _ = Done _ _ |- _ => destruct b eqn:?
    | H : (match ?x with _ => _ end) _ = Done _ _ |- _ => destruct x eqn:?
    | H : ret _ _ = Done _ _ |- _ => apply ret_inv in H as [? ?]; simplify_eq
    | H : panic _ _ = Done _ _ |- _ => discriminate H
    | H : field _ _ _ = Done _ _ |- _ =>
        apply field_inv in H as (? & ? & ?); simplify_eq
    | H : call _ _ _ = Done _ _ |- _ => apply call_inv in H as (? & ? & ? & ?)
    | H : call_ _ _ _ = Done _ _ |- _ => apply call__inv in H as (? & ? & ? & ?)
    | H : alloc _ _ _ _ = Done _ _ |- _ => apply alloc_inv in H as (? & ? & ? & ?)
    | H : free _ _ _ _ _ = Done _ _ |- _ => apply free_inv in H as (? & ? & ? & ?)
    | H : newFrame _ _ _ = Done _ _ |- _ =>
        apply newFrame_inv in H
          as (_ & _ & _ & _ & _ & ? & _ & _ & _ & ? & ?)
    end.

Lemma decodeFrameImpl_bookkeeping h data (st : State World) r st' :
  conv_context (conv h) = NULL ->
  decodeFrameImpl L h data st = Done r st' ->
  (exists made,
     calls st' = calls st ++ made /\ In made calls_of_step /\
     times FnSwsScale2 made = length (option_list r.1.1.1)) /\
  ((ResBuffer, NULL) ∉ live st ->
   exists sws, live st' = sws ++ live st /\ scaling_contexts sws).
Proof.
  intros Hnil H.
  unfold decodeFrameImpl, parse, isFrameAvailable, decodeFrame, PredictSize,
    Convert in H.
  rewrite Hnil in H. change (NULL =? NULL) with true in H. cbv iota in H.
  dissect.
  all: try match goal with
           | Hc : (?c =? NULL) = true, Hn : not (?c = NULL) |- _ =>
               apply Z.eqb_eq in Hc; contradiction
           end.
  all: split;
    [ eexists; split; [chain; rewrite <- ?app_assoc; reflexivity|];
      split; [cbn; tauto | reflexivity]
    | intros Hbuf; chain ].
  all: try (exists []; split; [reflexivity | constructor]).
  all: repeat match goal with
              | |- context [if ?p =? NULL then _ else _] =>
                  destruct (p =? NULL) eqn:?
              end.
  all: repeat match goal with
              | E : (_ =? NULL) = true |- _ => apply Z.eqb_eq in E; subst
              | E : (_ =? NULL) = false |- _ => apply Z.eqb_neq in E
              end.
  all: rewrite ?remove_first_scaling_context by discriminate.
  all: rewrite ?remove_first_head.
  all: rewrite ?remove_first_absent by assumption.
  all: first
    [ exists []; split; [reflexivity | constructor]
    | eexists [_]; split; [reflexivity | repeat constructor; assumption] ].
Qed.

Lemma times_app f made1 made2 :
  times f (made1 ++ made2) = (times f made1 + times f made2)%nat.
Proof. unfold times. rewrite filter_app, length_app. reflexivity. Qed.

Lemma one_context_per_picture_nil : one_context_per_picture [].
Proof. repeat split; reflexivity. Qed.

Lemma one_context_per_picture_step made :
  In made calls_of_step -> one_context_per_picture made.
Proof.
  intros Hin. cbn in Hin.
  destruct Hin as [<-|[<-|[<-|[<-|[]]]]]; repeat split; vm_compute; lia.
Qed.

Lemma one_context_per_picture_app made1 made2 :
  one_context_per_picture made1 -> one_context_per_picture made2 ->
  one_context_per_picture (made1 ++ made2).
Proof.
  unfold one_context_per_picture. rewrite !times_app. lia.
Qed.

Lemma scaling_contexts_no_nil sws l :
  scaling_contexts sws -> no_nil_handles l -> no_nil_handles (sws ++ l).
Proof.
  intros Hs Hl. apply Forall_app. split; [|exact Hl].
  eapply Forall_impl; [exact Hs|]. cbn. tauto.
Qed.

Lemma no_nil_handles_absent l r : no_nil_handles l -> (r, NULL) ∉ l.
Proof.
  intros Hl Hin. unfold no_nil_handles in Hl. rewrite Forall_forall in Hl.
  apply Hl in Hin. cbn in Hin. contradiction.
Qed.

(** The calls of the loop of [Decode]. *)
Lemma Decode_loop_calls fuel h :
  conv_context (conv h) = NULL ->
  forall data acc (st : State World) fs err st',
    Decode_loop L fuel h data acc st = Done (fs, err) st' ->
    exists made,
      calls st' = calls st ++ made /\
      one_context_per_picture made /\
      (err = None ->
       length fs = (length acc + times FnSwsScale2 made)%nat).
Proof.
  intros Hnil.
  induction fuel as [|fuel IH]; intros data acc st fs err st' Hrun.
  all: destruct data as [|b data];
    [ apply ret_inv in Hrun as [Hrun ->]; inversion Hrun; subst;
      exists []; rewrite app_nil_r;
      split; [reflexivity|];
      split; [apply one_context_per_picture_nil | cbn; lia]
    | ].
  { discriminate Hrun. }
  cbn [Decode_loop] in Hrun.
  apply bind_Done_inv in Hrun as ([[[fr n] avail] e] & st1 & Hstep & Hrun).
  destruct (decodeFrameImpl_bookkeeping _ _ _ _ _ Hnil Hstep)
    as [(made1 & Hcalls1 & Hshape & Hscaled) _].
  cbn [fst] in Hscaled.
  destruct (not_nil e && (n <? 0)) eqn:Habort.
  { apply ret_inv in Hrun as [Hrun ->]. inversion Hrun; subst.
    exists made1. split; [exact Hcalls1|].
    split; [apply one_context_per_picture_step; exact Hshape|].
    intros ->. discriminate Habort. }
  apply bind_Done_inv in Hrun as (data' & st2 & Hslice & Hrun).
  assert (st2 = st1) as ->.
  { unfold slice_from in Hslice.
    destruct ((0 <=? n) && (n <=? Z.of_nat (length (b :: data))));
      [|discriminate Hslice].
    apply ret_inv in Hslice. tauto. }
  apply IH in Hrun as (made2 & Hcalls2 & Hbal & Hcount).
  exists (made1 ++ made2). rewrite Hcalls2, Hcalls1, app_assoc.
  split; [reflexivity|].
  split.
  { apply one_context_per_picture_app; [|exact Hbal].
    apply one_context_per_picture_step. exact Hshape. }
  intros Hnone. rewrite (Hcount Hnone), times_app, Hscaled.
  destruct (decodeFrameImpl_shape _ _ _ _ _ _ _ _ Hstep)
    as [(-> & -> & _)|[(-> & -> & _)|(Hfr & -> & _)]]; cbn; try lia.
  destruct fr as [f|]; [|congruence]. rewrite length_app. cbn. lia.
Qed.

(** X9. For a decoder without a stored scaling context, as [New] makes
    it, [Decode] never asks for a cached scaling context and frees none:
    it builds a new one for every picture it converts.  Every scratch
    buffer it allocates it frees, and when it returns without error every
    frame returned is the result of one scaling. *)
Theorem Decode_builds_a_scaling_context_per_picture
    fuel h data (st : State World) fs err st' :
  conv_context (conv h) = NULL ->
  Decode L fuel h data st = Done (fs, err) st' ->
  exists made,
    calls st' = calls st ++ made /\
    one_context_per_picture made /\
    (err = None -> length fs = times FnSwsScale2 made).
Proof.
  intros Hnil Hrun.
  destruct (Decode_loop_calls fuel h Hnil _ _ _ _ _ _ Hrun)
    as (made & Hcalls & Hbal & Hcount).
  exists made. auto.
Qed.

(** The live resources over the loop of [Decode]. *)
Lemma Decode_loop_live fuel h data acc (st : State World) fs err st' :
  conv_context (conv h) = NULL ->
  no_nil_handles (live st) ->
  Decode_loop L fuel h data acc st = Done (fs, err) st' ->
  exists sws, live st' = sws ++ live st /\ scaling_contexts sws.
Proof.
  intros Hnil Hlive Hrun.
  refine (Decode_loop_invariant
            (fun _ s => exists sws,
               live s = sws ++ live st /\ scaling_contexts sws) h _
            fuel data acc st fs err st' _ Hrun).
  - clear - Hnil Hlive.
    intros data s fr nread avail err s' acc (sws & Hs & Hsws) Hstep.
    destruct (decodeFrameImpl_bookkeeping _ _ _ _ _ Hnil Hstep) as [_ Hl].
    destruct Hl as (sws' & Hs' & Hsws').
    { rewrite Hs. apply no_nil_handles_absent.
      apply scaling_contexts_no_nil; assumption. }
    assert (exists sws0, live s' = sws0 ++ live st /\ scaling_contexts sws0).
    { exists (sws' ++ sws). rewrite Hs', Hs, app_assoc.
      split; [reflexivity|]. apply Forall_app. auto. }
    auto.
  - exists []. split; [reflexivity | constructor].
Qed.

(** X10. [Decode] gives nothing of the decoder back and frees its scratch
    buffers on every path that returns: what is live after the call is what
    was live before, preceded by the scaling contexts built during the
    call, which nothing in the package frees. *)
Theorem Decode_leaves_only_scaling_contexts
    fuel h data (st : State World) fs err st' :
  conv_context (conv h) = NULL ->
  no_nil_handles (live st) ->
  Decode L fuel h data st = Done (fs, err) st' ->
  (exists sws, live st' = sws ++ live st /\ scaling_contexts sws) /\
  no_nil_handles (live st').
Proof.
  intros Hnil Hlive Hrun.
  destruct (Decode_loop_live _ _ _ _ _ _ _ _ Hnil Hlive Hrun)
    as (sws & Hs & Hsws).
  split; [exists sws; auto|].
  rewrite Hs. apply scaling_contexts_no_nil; assumption.
Qed.

(** *** Close *)

(** A release call always returns. *)
Lemma free_run r f (op : ptr -> World -> World) p (st : State World) :
  free r f op p st
  = Done tt (mkState (op p (world st)) (goheap st)
               (remove_first (r, p) (live st)) (calls st ++ [f])).
Proof. reflexivity. Qed.

(** [Close] always returns: seven release calls, in the order of the
    source, each with its entry taken out of the bookkeeping. *)
Lemma Close_returns h (st : State World) :
  exists st',
    Close L h st = Done tt st' /\
    calls st' = calls st ++ calls_of_Close /\
    goheap st' = goheap st /\
    world st' =
      AvFreePacket L (pkt h)
        (AvFrameFree L (frame h)
           (AvFree L (context h)
              (AvcodecClose L (context h)
                 (AvParserClose L (parser h)
                    (AvFrameFree L (framergb (conv h))
                       (SwsFreecontext L (conv_context (conv h))
                          (world st))))))) /\
    live st' =
      remove_first (ResPacket, pkt h)
        (remove_first (ResFrame, frame h)
           (remove_first (ResContext, context h)
              (remove_first (ResOpenCodec, context h)
                 (remove_first (ResParser, parser h)
                    (remove_first (ResFrame, framergb (conv h))
                       (remove_first (ResSwsContext, conv_context (conv h))
                          (live st))))))).
Proof.
  unfold Close, converter_Close.
  repeat (erewrite bind_Done by apply free_run; cbn [world goheap live calls]).
  rewrite free_run. cbn [world goheap live calls].
  eexists. split; [reflexivity|].
  cbn [calls goheap live world]. rewrite <- !app_assoc. auto.
Qed.

(** The entries of a decoder, taken out by [Close] in its order. *)
Lemma remove_decoder_resources h rest :
  remove_first (ResPacket, pkt h)
    (remove_first (ResFrame, frame h)
       (remove_first (ResContext, context h)
          (remove_first (ResOpenCodec, context h)
             (remove_first (ResParser, parser h)
                (remove_first (ResFrame, framergb (conv h))
                   (decoder_resources h ++ rest))))))
  = rest.
Proof.
  unfold decoder_resources. cbn [app].
  repeat first [ rewrite remove_first_head
               | rewrite remove_first_other by discriminate ].
  reflexivity.
Qed.

Lemma remove_decoder_resources_past sws h rest :
  scaling_contexts sws ->
  remove_first (ResPacket, pkt h)
    (remove_first (ResFrame, frame h)
       (remove_first (ResContext, context h)
          (remove_first (ResOpenCodec, context h)
             (remove_first (ResParser, parser h)
                (remove_first (ResFrame, framergb (conv h))
                   (sws ++ decoder_resources h ++ rest))))))
  = sws ++ rest.
Proof.
  intros Hsws. induction Hsws as [|[r q] sws [Hx _] _ IH].
  { apply remove_decoder_resources. }
  cbn in Hx. subst r. cbn [app].
  repeat rewrite remove_first_other by discriminate.
  f_equal. exact IH.
Qed.

(** What [Close] leaves of a decoder's resources and of the scaling
    contexts piled up in front of them. *)
Lemma Close_releases h (st : State World) sws rest :
  conv_context (conv h) = NULL ->
  live st = sws ++ decoder_resources h ++ rest ->
  scaling_contexts sws ->
  no_nil_handles rest ->
  framergb (conv h) <> NULL -> pkt h <> NULL -> frame h <> NULL ->
  parser h <> NULL -> context h <> NULL ->
  exists st',
    Close L h st = Done tt st' /\
    calls st' = calls st ++ calls_of_Close /\
    world st' =
      AvFreePacket L (pkt h)
        (AvFrameFree L (frame h)
           (AvFree L (context h)
              (AvcodecClose L (context h)
                 (AvParserClose L (parser h)
                    (AvFrameFree L (framergb (conv h))
                       (SwsFreecontext L NULL (world st))))))) /\
    live st' = sws ++ rest.
Proof.
  intros Hnil Hlive Hsws Hrest H1 H2 H3 H4 H5.
  destruct (Close_returns h st) as (st' & Hrun & Hcalls & Hheap & Hw & Hl).
  exists st'. split; [exact Hrun|]. split; [exact Hcalls|].
  split; [rewrite Hw, Hnil; reflexivity|].
  rewrite Hl, Hnil, Hlive.
  rewrite (remove_first_absent (ResSwsContext, NULL)).
  2: { apply no_nil_handles_absent.
       apply scaling_contexts_no_nil; [exact Hsws|].
       apply Forall_app. split; [|exact Hrest].
       unfold decoder_resources. repeat constructor; assumption. }
  apply remove_decoder_resources_past. exact Hsws.
Qed.

(** X11. [Close] after [New].  After a successful [New], [Close] returns,
    and every handle [New] obtained has gone to the release call the
    package has for it: [AvFrameFree] for the two frames, [AvParserClose]
    for the parser, [AvcodecClose] and [AvFree] for the context,
    [AvFreePacket] for the packet.  In the bookkeeping of live resources,
    which pairs each acquisition with that call, what is live after
    [Close] is what was live before [New]; between them they made the ten
    calls of [New] and the seven of [Close]. *)
Theorem Close_gives_back_what_New_took
    pxlFmt cpr (st : State World) d e st1 :
  no_nil_handles (live st) ->
  New L pxlFmt cpr st = Done (Some d, e) st1 ->
  exists st2,
    Close L d st1 = Done tt st2 /\
    live st1 = decoder_resources d ++ live st /\
    live st2 = live st /\
    calls st2 = calls st ++ calls_of_New ++ calls_of_Close /\
    world st2 =
      AvFreePacket L (pkt d)
        (AvFrameFree L (frame d)
           (AvFree L (context d)
              (AvcodecClose L (context d)
                 (AvParserClose L (parser d)
                    (AvFrameFree L (framergb (conv d))
                       (SwsFreecontext L NULL (world st1))))))).
Proof.
  intros Hlive Hnew.
  apply New_success_inv in Hnew
    as (_ & _ & (Hc & Hp & Hf & Hk & Hr) & Hnil & _ & _ & Hl & Hcalls & Hheap).
  destruct (Close_releases d st1 [] (live st) Hnil Hl) as
    (st2 & Hrun & Hcalls2 & Hw2 & Hl2); try assumption; [constructor|].
  exists st2. split; [exact Hrun|]. split; [exact Hl|]. split; [exact Hl2|].
  rewrite Hcalls2, Hcalls, app_assoc. auto.
Qed.

(** The live resources over successive calls of [Decode]. *)
Lemma DecodeChunks_live fuel h :
  conv_context (conv h) = NULL ->
  forall chunks (st : State World) fs st',
    no_nil_handles (live st) ->
    DecodeChunks L fuel h chunks st = Done fs st' ->
    exists sws, live st' = sws ++ live st /\ scaling_contexts sws.
Proof.
  intros Hnil.
  induction chunks as [|chunk chunks IH]; intros st fs st' Hlive Hrun.
  { apply ret_inv in Hrun as [_ ->]. exists []. split; [reflexivity|constructor]. }
  cbn [DecodeChunks] in Hrun.
  apply bind_Done_inv in Hrun as ([frames err] & st1 & Hdec & Hrun).
  apply bind_Done_inv in Hrun as (more & st2 & Hmore & Hrun).
  apply ret_inv in Hrun as [_ ->].
  destruct (Decode_loop_live _ _ _ _ _ _ _ _ Hnil Hlive Hdec)
    as (sws1 & Hs1 & Hsws1).
  assert (Hlive1 : no_nil_handles (live st1)).
  { rewrite Hs1. apply scaling_contexts_no_nil; assumption. }
  destruct (IH _ _ _ Hlive1 Hmore) as (sws2 & Hs2 & Hsws2).
  exists (sws2 ++ sws1). rewrite Hs2, Hs1, app_assoc.
  split; [reflexivity|]. apply Forall_app. auto.
Qed.

(** X12. A decoder's life: [New], any number of [Decode] calls that
    return, [Close].  Before [Close], what is live beyond what was live at
    the start are the decoder's six resources and, acquired after them,
    the scaling contexts the [Decode] calls have built.  [Close] returns
    and takes the six out; every one of the scaling contexts is still live
    after it, for the one call of [SwsFreecontext] that [Close] makes is
    on the converter's field, which is nil. *)
Theorem Close_leaves_the_scaling_contexts
    pxlFmt cpr fuel chunks (st : State World) d e st1 fs st2 :
  no_nil_handles (live st) ->
  New L pxlFmt cpr st = Done (Some d, e) st1 ->
  DecodeChunks L fuel d chunks st1 = Done fs st2 ->
  exists st3 sws,
    live st2 = sws ++ decoder_resources d ++ live st /\
    scaling_contexts sws /\
    Close L d st2 = Done tt st3 /\
    live st3 = sws ++ live st /\
    calls st3 = calls st2 ++ calls_of_Close /\
    world st3 =
      AvFreePacket L (pkt d)
        (AvFrameFree L (frame d)
           (AvFree L (context d)
              (AvcodecClose L (context d)
                 (AvParserClose L (parser d)
                    (AvFrameFree L (framergb (conv d))
                       (SwsFreecontext L NULL (world st2))))))).
Proof.
  intros Hlive Hnew Hdec.
  apply New_success_inv in Hnew
    as (_ & _ & (Hc & Hp & Hf & Hk & Hr) & Hnil & _ & _ & Hl & _ & _).
  assert (Hlive1 : no_nil_handles (live st1)).
  { rewrite Hl. apply Forall_app. split; [|exact Hlive].
    unfold decoder_resources. repeat constructor; assumption. }
  destruct (DecodeChunks_live fuel d Hnil chunks _ _ _ Hlive1 Hdec)
    as (sws & Hs & Hsws).
  rewrite Hl in Hs.
  destruct (Close_releases d st2 sws (live st) Hnil Hs) as
    (st3 & Hrun & Hcalls3 & Hw3 & Hl3); try assumption.
  exists st3, sws. auto 10.
Qed.

(** *** Where the errors of a step come from *)

(** X13. The error of a step of [Decode] is the package's own "error
    decoding frame", made when the decoder reports failure or no picture,
    or it is the error [AvSetFrame] returned on the converter's frame. *)
Theorem decodeFrameImpl_errors h data (st : State World) fr nread avail e st' :
  decodeFrameImpl L h data st = Done (fr, nread, avail, Some e) st' ->
  (e = "error decoding frame"%string /\
   exists w w' n got,
     AvcodecDecodeVideo2 L (context h) (frame h) (pkt h) w = (w', (n, got)) /\
     (n < 0 \/ got = 0)) \/
  (exists wd ht w w',
     AvSetFrame L (framergb (conv h)) wd ht (pixFmt (conv h)) w
       = (w', Some e)).
Proof.
  intros H.
  unfold decodeFrameImpl, parse, isFrameAvailable, decodeFrame, PredictSize,
    Convert in H.
  dissect.
  all: try match goal with
           | Hc : (?c =? NULL) = true, Hn : not (?c = NULL) |- _ =>
               apply Z.eqb_eq in Hc; contradiction
           end.
  all: first
    [ left; split; [reflexivity|];
      match goal with
      | Hd : AvcodecDecodeVideo2 _ _ _ _ ?w = (?w', (?n, ?got)),
        Hb : (?n <? 0) || (?got =? 0) = true |- _ =>
          exists w, w', n, got; split; [exact Hd|];
          apply orb_true_iff in Hb as [Hb|Hb];
            [left; apply Z.ltb_lt | right; apply Z.eqb_eq]; exact Hb
      end
    | right;
      match goal with
      | Hs : AvSetFrame _ _ ?wd ?ht _ ?w = (?w', Some _) |- _ =>
          exists wd, ht, w, w'; exact Hs
      end ].
Qed.

(** A nil codec context makes [Convert] panic at its first statement. *)
Lemma Convert_nil_context_panics c fr buf (st : State World) :
  Convert L c NULL fr buf st
  = Panic "invalid memory address or nil pointer dereference" st.
Proof. reflexivity. Qed.

(** X14. An error that [Convert] returns is the one [AvSetFrame] gave
    for the converter's frame and the geometry of the codec context, and
    it comes with a nil frame.  The error "cannot allocate context" of the
    nil test in the middle of [Convert] is never made: the context tested
    there is the one whose fields were read at the first statement. *)
Theorem Convert_error_is_from_AvSetFrame
    c ctx fr buf (st : State World) r e st' :
  Convert L c ctx fr buf st = Done (r, Some e) st' ->
  r = NULL /\ ctx <> NULL /\
  exists w,
    AvSetFrame L (framergb c) (CtxWidth L ctx (world st))
      (CtxHeight L ctx (world st)) (pixFmt c) w = (world st', Some e).
Proof.
  intros H. unfold Convert in H.
  apply bind_Done_inv in H as (wd & s1 & Hwd & H).
  apply bind_Done_inv in H as (ht & s2 & Hht & H).
  apply bind_Done_inv in H as (fmt & s3 & Hfmt & H).
  apply field_inv in Hwd as (Hctx & -> & ->).
  apply field_inv in Hht as (_ & -> & ->).
  apply field_inv in Hfmt as (_ & -> & ->).
  apply bind_Done_inv in H as (sws & s4 & _ & H).
  destruct (ctx =? NULL) eqn:E; [apply Z.eqb_eq in E; contradiction|].
  apply bind_Done_inv in H as ([e'|] & s5 & Hset & H).
  - apply ret_inv in H as [H ->]. inversion H; subst.
    apply call_inv in Hset as (Hset & _).
    split; [reflexivity|]. split; [exact Hctx|].
    exists (world s4). exact Hset.
  - dissect.
Qed.

(** *** newFrame *)

Lemma C_int_range z : - 2 ^ 31 <= C_int z < 2 ^ 31.
Proof.
  unfold C_int, wrap_signed.
  change (2 ^ (32 - 1)) with 2147483648. change (2 ^ 32) with 4294967296.
  change (2 ^ 31) with 2147483648.
  pose proof (Z.mod_pos_bound (z + 2147483648) 4294967296 eq_refl). lia.
Qed.

(** X16. The frame [newFrame] makes has the width, height and line size
    of the picture, and its [Data] is a new array whose length is the
    product line size * height after the conversions of the source, to
    [int] and then to [C.int].  So [len(Data) == Stride * Height] holds
    exactly when that product is in the range of a non-negative
    [C.int]; beyond it the copy is shorter than the picture. *)
Theorem newFrame_data_length fr (st : State World) f st' :
  newFrame L fr st = Done f st' ->
  Width f = FrameWidth L fr (world st) /\
  Height f = FrameHeight L fr (world st) /\
  Stride f = Linesize0 L fr (world st) /\
  exists bytes,
    goheap st' !! Data f = Some bytes /\
    Z.of_nat (length bytes) = C_int (go_int (Stride f * Height f)) /\
    (Z.of_nat (length bytes) = Stride f * Height f <->
     0 <= Stride f * Height f < 2 ^ 31).
Proof.
  intros H.
  apply newFrame_inv in H
    as (HW & HH & HS & HD & Hsize & bytes & Hlen & Hheap & _).
  repeat (split; [assumption|]).
  exists bytes.
  assert (Hbytes : Z.of_nat (length bytes)
                   = C_int (go_int (Stride f * Height f))).
  { rewrite Hlen. apply Z2Nat.id. exact Hsize. }
  split; [rewrite Hheap, HD; apply list_lookup_middle; reflexivity|].
  split; [exact Hbytes|].
  rewrite Hbytes. split.
  - intros <-. split; [exact Hsize | apply C_int_range].
  - apply C_int_go_int_small.
Qed.

(** *** ToRGB *)

(** X15. The image [ToRGB] makes of a frame that satisfies the invariant
    of [Frame], with a width and a height that are not negative: its
    rectangle is (0,0)-(Width,Height), its [Pix] is the frame's [Data]
    itself, and the three bytes of every pixel of the rectangle, at
    [y * Stride + 3 * x], lie inside [Pix]. *)
Theorem ToRGB_pixels_within_Pix heap f :
  frame_wf heap f -> 0 <= Width f -> 0 <= Height f ->
  Rect (ToRGB f) = ((0, 0), (Width f, Height f)) /\
  Pix (ToRGB f) = Data f /\
  exists bytes,
    heap !! Pix (ToRGB f) = Some bytes /\
    forall x y,
      0 <= x < Width f -> 0 <= y < Height f ->
      0 <= y * ImgStride (ToRGB f) + 3 * x /\
      y * ImgStride (ToRGB f) + 3 * x + 3 <= Z.of_nat (length bytes).
Proof.
  intros (bytes & Hdata & Hlen & Hstride) HW HH.
  unfold ToRGB, image_Rect. cbn [Rect Pix ImgStride].
  split; [rewrite !Z.min_l, !Z.max_r by lia; reflexivity|].
  split; [reflexivity|].
  exists bytes. split; [exact Hdata|].
  intros x y Hx Hy. rewrite Hlen. nia.
Qed.

End Properties.

(** ** The properties at work on the small library *)

(** *** What the small library provides *)

Lemma toy_leading_filler_le data :
  (Toy.leading_filler data <= length data)%nat.
Proof.
  induction data as [|b data IH]; cbn; [lia|].
  destruct (Toy.is_filler b); lia.
Qed.

Lemma toy_drop_leading_filler data b rest :
  drop (Toy.leading_filler data) data = b :: rest ->
  (Toy.leading_filler data < length data)%nat.
Proof.
  intros H. pose proof (toy_leading_filler_le data) as Hle.
  destruct (decide (Toy.leading_filler data = length data)) as [Heq|]; [|lia].
  rewrite Heq, drop_all in H. discriminate H.
Qed.

Lemma toy_leading_filler_app_stop d1 d2 :
  (Toy.leading_filler d1 < length d1)%nat ->
  Toy.leading_filler (d1 ++ d2) = Toy.leading_filler d1.
Proof.
  induction d1 as [|b d1 IH]; cbn; [lia|].
  destruct (Toy.is_filler b); [|reflexivity].
  intros H. rewrite IH by lia. reflexivity.
Qed.

Lemma toy_leading_filler_app_all d1 d2 :
  Toy.leading_filler d1 = length d1 ->
  Toy.leading_filler (d1 ++ d2) = (length d1 + Toy.leading_filler d2)%nat.
Proof.
  induction d1 as [|b d1 IH]; cbn; [reflexivity|].
  destruct (Toy.is_filler b); [|discriminate].
  intros H. rewrite IH by lia. reflexivity.
Qed.

(** Without quirks the parser of the small library stays within the
    chunk ... *)
Lemma toy_parser_in_bounds h : parser_in_bounds (Toy.lib false) h.
Proof.
  intros w data. unfold parser_call. cbn. unfold Toy.parse2.
  pose proof (toy_leading_filler_le data) as Hle.
  destruct (drop (Toy.leading_filler data) data) as [|b rest] eqn:Hd; cbn.
  - lia.
  - apply toy_drop_leading_filler in Hd. lia.
Qed.

(** *** The parser of the small library takes its input as a stream *)

Lemma toy_set_pkt_same a b w w' :
  Toy.set_pkt 0 Byte.x00 w = Toy.set_pkt 0 Byte.x00 w' ->
  Toy.set_pkt a b w = Toy.set_pkt a b w'.
Proof.
  unfold Toy.set_pkt. intros H. injection H as -> -> -> -> -> -> -> -> -> -> ->.
  reflexivity.
Qed.

Lemma toy_all_filler data :
  drop (Toy.leading_filler data) data = [] ->
  Toy.leading_filler data = length data.
Proof.
  intros H. pose proof (toy_leading_filler_le data).
  apply (f_equal length) in H. rewrite length_drop in H. cbn in H. lia.
Qed.

Lemma toy_step_congruence s s' :
  step_congruence (Toy.lib false) (fun w w' => Toy.Unit w s w' s').
Proof.
  split; intros; intros w w' [-> ->]; repeat split; reflexivity.
Qed.

Lemma toy_cut_independent h :
  cut_independent (Toy.lib false) h Toy.Sim Toy.Unit.
Proof.
  split.
  - intros w s w' s' [H1 H2]. split; congruence.
  - intros w d r w' s' w1 n [Hw Hs] Hne Hp Hsil.
    unfold parser_call in Hp. cbn in Hp, Hsil. unfold Toy.parse2 in Hp.
    destruct (drop (Toy.leading_filler d) d) as [|b rest] eqn:Hd.
    + apply toy_all_filler in Hd.
      injection Hp as <- <-. rewrite Hd, Nat2Z.id.
      split; [destruct d; [congruence | cbn; lia]|].
      split; [rewrite <- Hw; reflexivity|].
      rewrite <- Hs, (toy_leading_filler_app_all d r Hd).
      rewrite drop_app_length, drop_app_ge by lia. f_equal. lia.
    + injection Hp as <- <-. cbn in Hsil. lia.
  - intros w d r w' w1 n [Hw Hs] Hne Hp.
    unfold parser_call in Hp. cbn in Hp |- *. unfold Toy.parse2 in Hp.
    destruct (drop (Toy.leading_filler d) d) as [|b rest] eqn:Hd.
    + injection Hp as <- <-. cbn. lia.
    + exfalso. pose proof (toy_drop_leading_filler _ _ _ Hd) as Hlt.
      rewrite (toy_leading_filler_app_stop d r Hlt) in Hs.
      rewrite drop_app_le, Hd in Hs by lia. discriminate Hs.
  - intros w d r w' d' r' w1 n w1' n' [Hw Hs] Hne Hne' Hp Hp' Hpos Hpos'.
    unfold parser_call in Hp, Hp'. cbn in Hp, Hp', Hpos, Hpos'.
    unfold Toy.parse2 in Hp, Hp'.
    destruct (drop (Toy.leading_filler d) d) as [|b rest] eqn:Hd;
      [injection Hp as <- <-; cbn in Hpos; lia|].
    destruct (drop (Toy.leading_filler d') d') as [|b' rest'] eqn:Hd';
      [injection Hp' as <- <-; cbn in Hpos'; lia|].
    pose proof (toy_drop_leading_filler _ _ _ Hd) as Hlt.
    pose proof (toy_drop_leading_filler _ _ _ Hd') as Hlt'.
    rewrite (toy_leading_filler_app_stop d r Hlt),
      (toy_leading_filler_app_stop d' r' Hlt') in Hs.
    rewrite !drop_app_le, Hd, Hd' in Hs by lia.
    injection Hs as -> Hs.
    injection Hp as <- <-. injection Hp' as <- <-.
    split; [apply toy_set_pkt_same; exact Hw|].
    replace (Z.to_nat (Z.of_nat (Toy.leading_filler d) + 1))
      with (Toy.leading_filler d + 1)%nat by lia.
    replace (Z.to_nat (Z.of_nat (Toy.leading_filler d') + 1))
      with (Toy.leading_filler d' + 1)%nat by lia.
    rewrite <- (drop_drop (d ++ r) 1), <- (drop_drop (d' ++ r') 1).
    rewrite (drop_app_le d r), (drop_app_le d' r') by lia.
    rewrite Hd, Hd'. cbn. exact Hs.
  - intros w s w' s' [-> ->]. split; reflexivity.
  - apply toy_step_congruence.
Qed.

(** *** The start-code parser takes its input as a stream *)













(** The converted picture of the small library is packed RGB. *)
Lemma toy_packed_rgb_output quirks : packed_rgb_output (Toy.lib quirks).
Proof.
  intros dst wd ht fmt buf sws src w w1 w2 sz _. cbn.
  unfold Toy.set_frame, Toy.picture_fill.
  destruct (Toy.fails FnAvSetFrame w || (wd <=? 0) || (ht <=? 0)
            || (2 ^ 31 <=? 3 * wd * ht)) eqn:Hok; [discriminate|].
  apply orb_false_elim in Hok as [Hok Hfit].
  apply orb_false_elim in Hok as [Hok Hht].
  apply orb_false_elim in Hok as [_ Hwd].
  apply Z.leb_gt in Hfit, Hht, Hwd.
  intros H1 H2. inversion H1; subst w1. inversion H2; subst w2 sz. cbn.
  nia.
Qed.

(** *** Decode on the small library *)

(** The frame of the unit [01]: 2x1, three bytes per pixel. *)
Example Decode_one_unit :
  returned (Decode (Toy.lib true) 1 Toy.decoder0 [Byte.x01] Toy.ready)
  = Some ([mkFrame 0%nat 2 1 6], None).
Proof. vm_compute. reflexivity. Qed.

(** C1, the claim as stated fails: the first unit of the chunk gives a
    frame, the second makes the step fail with a byte count of -1, and
    [Decode] returns the error with a nil frame list; the frame is lost. *)
Lemma Decode_abort_loses_frames :
  exists f st1 st2 e,
    decodeFrameImpl (Toy.lib true) Toy.decoder0 [Byte.x01; Byte.x02] Toy.ready
      = Done (Some f, 1, true, None) st1 /\
    decodeFrameImpl (Toy.lib true) Toy.decoder0 [Byte.x02] st1
      = Done (None, -1, true, Some e) st2 /\
    Decode (Toy.lib true) 2 Toy.decoder0 [Byte.x01; Byte.x02] Toy.ready
      = Done ([], Some e) st2.
Proof.
  eexists _, _, _, _.
  split; [vm_compute; reflexivity|]. split; vm_compute; reflexivity.
Qed.

Lemma Decode_aborts_on_negative_progress_witness :
  exists f st1 st',
    decodeFrameImpl (Toy.lib true) Toy.decoder0 [Byte.x01; Byte.x02] Toy.ready
      = Done (Some f, 1, true, None) st1 /\
    Decode_loop (Toy.lib true) 1 Toy.decoder0 [Byte.x02] [f] st1
      = Done ([], Some "error decoding frame"%string) st'.
Proof.
  eexists _, _, _. split; [vm_compute; reflexivity|].
  eapply (Decode_aborts_on_negative_progress (Toy.lib true) 0 Toy.decoder0
            [Byte.x02] _ _ None (-1) true).
  - discriminate.
  - vm_compute. reflexivity.
  - lia.
Defined.

(** C2, the claim as stated fails: the only unit of the chunk cannot be
    decoded, the byte count is 1, and [Decode] returns a nil error. *)
Lemma Decode_unit_failure_unreported :
  exists st1 e,
    decodeFrameImpl (Toy.lib true) Toy.decoder0 [Byte.x03] Toy.ready
      = Done (None, 1, true, Some e) st1 /\
    Decode (Toy.lib true) 1 Toy.decoder0 [Byte.x03] Toy.ready
      = Done ([], None) st1.
Proof. eexists _, _. split; vm_compute; reflexivity. Qed.

Lemma Decode_drops_unit_failure_witness :
  exists st',
    Decode_loop (Toy.lib true) 1 Toy.decoder0 [Byte.x03] [] Toy.ready
      = Done ([], None) st'.
Proof.
  eexists.
  refine (proj2 (Decode_drops_unit_failure (Toy.lib true) 0 Toy.decoder0
                   [Byte.x03] [] Toy.ready None 1 true
                   "error decoding frame"%string _ _ _ _) _).
  - discriminate.
  - vm_compute. reflexivity.
  - cbn. lia.
  - reflexivity.
Defined.

(** C6, the claim as stated fails: on the byte [04] the parser takes
    nothing and has no unit, and [Decode] calls it again and again;
    whatever the fuel, the call has not come to an end. *)
Lemma toy_stall fuel :
  forall frames st,
    Decode_loop (Toy.lib true) fuel Toy.decoder0 [Byte.x04] frames st
    = OutOfFuel.
Proof.
  induction fuel as [|fuel IH]; intros frames st; [reflexivity|].
  assert (Hstep :
    decodeFrameImpl (Toy.lib true) Toy.decoder0 [Byte.x04] st =
      Done (None, 0, false, None)
        (mkState (Toy.set_pkt 0 Byte.x00 (world st)) (goheap st) (live st)
           (calls st ++ [FnAvParserParse2]))).
  { apply decodeFrameImpl_no_unit; [discriminate | reflexivity | cbn; lia]. }
  assert (Hne : [Byte.x04] <> []) by discriminate.
  rewrite (Decode_loop_step _ _ _ _ _ _ _ _ _ _ _ Hne Hstep).
  cbn [not_nil andb]. unfold bind.
  rewrite slice_from_in_range by (cbn; lia). apply IH.
Qed.

Lemma Decode_stalls_on_zero_progress :
  (parser_call (Toy.lib true) Toy.decoder0 [Byte.x04] (world Toy.ready)).2 = 0
  /\
  ~ terminates
      (fun fuel => Decode (Toy.lib true) fuel Toy.decoder0 [Byte.x04] Toy.ready).
Proof.
  split; [reflexivity|]. intros [fuel H]. apply H. apply toy_stall.
Qed.

Lemma Decode_no_unit_returns_empty_witness :
  exists st',
    Decode (Toy.lib true) 2 Toy.decoder0 [Byte.x00; Byte.x00] Toy.ready
      = Done ([], None) st' /\
    goheap st' = goheap Toy.ready /\ live st' = live Toy.ready.
Proof.
  assert (Hpkt : pkt Toy.decoder0 <> NULL) by discriminate.
  apply (proj1 (Decode_no_unit_returns_empty (Toy.lib true) Toy.decoder0
                  [Byte.x00; Byte.x00] Toy.ready Hpkt)).
  eapply NoUnit_more with (nread := 2);
    [discriminate | vm_compute; reflexivity | cbn; lia | cbn; lia |].
  apply NoUnit_end.
Defined.

(** *** Cutting the input of the start-code parser *)


(** The second call of the three: the chunk before it ended with the
    first byte of a start code, so the parser completes the unit with a
    byte count of 0, and the frame comes from this call. *)
Example startcode_reads_ahead :
  exists st1 f st2,
    Decode StartCode.lib 1 Toy.decoder0
      [Byte.x00; Byte.x01; Byte.x07; Byte.x00] StartCode.ready
      = Done ([], None) st1 /\
    (parser_call StartCode.lib Toy.decoder0 [Byte.x01; Byte.x09]
       (world st1)).2 = 0 /\
    Decode StartCode.lib 2 Toy.decoder0 [Byte.x01; Byte.x09] st1
      = Done ([f], None) st2 /\
    (world st2).2 = [Byte.x00; Byte.x01; Byte.x09].
Proof.
  eexists _, _, _. split; [vm_compute; reflexivity|].
  split; [vm_compute; reflexivity|].
  split; [vm_compute; reflexivity|]. reflexivity.
Qed.

Lemma Decode_frames_well_formed_witness :
  exists frames st',
    Decode (Toy.lib true) 3 Toy.decoder0 [Byte.x00; Byte.x81; Byte.x07]
      Toy.ready = Done (frames, None) st' /\
    length frames = 2%nat /\
    Forall (frame_wf (goheap st')) frames.
Proof.
  eexists _, _. split; [vm_compute; reflexivity|].
  split; [reflexivity|].
  eapply (Decode_frames_well_formed (Toy.lib true) 3 Toy.decoder0
            [Byte.x00; Byte.x81; Byte.x07] Toy.ready _ None _
            (toy_packed_rgb_output true)).
  - left. reflexivity.
  - vm_compute. reflexivity.
Defined.

Lemma Decode_frames_own_their_data_witness :
  exists f1 f2 st',
    Decode (Toy.lib true) 3 Toy.decoder0 [Byte.x01; Byte.x00; Byte.x07]
      Toy.ready = Done ([f1; f2], None) st' /\
    NoDup (Data <$> [f1; f2]).
Proof.
  eexists _, _, _. split; [vm_compute; reflexivity|].
  refine (proj1 (proj2 (proj2
            (Decode_frames_own_their_data (Toy.lib true) 3 Toy.decoder0
               [Byte.x01; Byte.x00; Byte.x07] Toy.ready _ None _ _)))).
  vm_compute. reflexivity.
Defined.

(** *** New and Convert on the small library *)

(** C4, the claim as stated fails: when the parser cannot be set up, [New]
    returns its error while the context it allocated and the codec it
    opened are still live. *)
Lemma New_failure_leaks :
  exists st',
    New (Toy.lib true) 2 27 (Toy.state0 [FnAvParserInit])
      = Done (None, Some "cannot init parser"%string) st' /\
    live st' = [(ResOpenCodec, 1); (ResContext, 1)] /\
    calls st' = [FnAvcodecRegisterAll; FnAvcodecFindDecoder;
                 FnAvcodecAllocContext3; FnAvcodecOpen2; FnAvParserInit].
Proof. eexists. split; [|split]; vm_compute; reflexivity. Qed.

Lemma New_failure_releases_nothing_witness :
  exists st',
    New (Toy.lib true) 2 27 (Toy.state0 [FnAvPacketAlloc])
      = Done (None, Some "cannot allocate packet"%string) st' /\
    releases_nothing (Toy.state0 [FnAvPacketAlloc]) st'.
Proof.
  eexists. split; [vm_compute; reflexivity|].
  refine (proj2 (New_failure_releases_nothing (Toy.lib true) 2 27
                   (Toy.state0 [FnAvPacketAlloc]) None
                   "cannot allocate packet"%string _ _)).
  vm_compute. reflexivity.
Defined.

(** C8, the claim as stated fails: for the compression 0, which is
    neither [H264] nor [H265], the library finds no decoder and the error
    of [New] is "cannot find decoder". *)
Lemma New_other_compression_no_decoder :
  exists st',
    0 <> H264 (Toy.lib true) /\ 0 <> H265 (Toy.lib true) /\
    New (Toy.lib true) 2 0 (Toy.state0 [])
      = Done (None, Some "cannot find decoder"%string) st'.
Proof.
  eexists. split; [discriminate|]. split; [discriminate|].
  vm_compute. reflexivity.
Qed.

Lemma New_rejects_other_compression_witness :
  exists e st',
    New (Toy.lib true) 2 12 (Toy.state0 []) = Done (None, Some e) st' /\
    (snd (AvcodecFindDecoder (Toy.lib true) 12
            (AvcodecRegisterAll (Toy.lib true) (world (Toy.state0 []))))
       = NULL ->
     e = "cannot find decoder"%string) /\
    (e = "unsupported compression"%string <->
     calls st' = calls (Toy.state0 []) ++ calls_before_validation).
Proof.
  apply (New_rejects_other_compression (Toy.lib true) 2 12 (Toy.state0 []));
    discriminate.
Defined.

(** From end to end: with a library that cannot build the scaling
    context, [Decode] still hands back a frame and a nil error. *)
Example Decode_without_scaling_context :
  exists st0 f st',
    New (Toy.lib true) 2 27 (Toy.state0 [FnSwsGetcontext])
      = Done (Some Toy.decoder0, None) st0 /\
    Decode (Toy.lib true) 1 Toy.decoder0 [Byte.x01] st0 = Done ([f], None) st'.
Proof.
  eexists _, _, _. split; [vm_compute; reflexivity|].
  vm_compute. reflexivity.
Qed.

Lemma Convert_ignores_failed_scaling_context_witness :
  exists st',
    Convert (Toy.lib true) (conv Toy.decoder0) 1 3 9
      (Toy.decoded [FnSwsGetcontext])
      = Done (framergb (conv Toy.decoder0), None) st'.
Proof.
  destruct (Convert_ignores_failed_scaling_context (Toy.lib true)
              (conv Toy.decoder0) 1 3 9 (Toy.decoded [FnSwsGetcontext])
              (world (Toy.decoded [FnSwsGetcontext]))
              (Toy.set_rgb_size 2 1 (world (Toy.decoded [FnSwsGetcontext]))))
    as (st' & Hrun & _).
  - discriminate.
  - reflexivity.
  - reflexivity.
  - reflexivity.
  - exists st'. exact Hrun.
Defined.

(** *** More of the package on the small library *)

Lemma New_decoder_is_complete_witness :
  New (Toy.lib true) 2 27 (Toy.state0 [])
    = Done (Some Toy.decoder0, None) Toy.ready /\
  rgb24_target (Toy.lib true) 2 /\
  pixFmt (conv Toy.decoder0) = 2 /\
  conv_context (conv Toy.decoder0) = NULL.
Proof.
  split; [exact New_on_toy|].
  pose proof (New_decoder_is_complete (Toy.lib true) 2 27 (Toy.state0 [])
                Toy.decoder0 None Toy.ready New_on_toy) as H.
  tauto.
Defined.

Lemma New_acquires_what_the_decoder_holds_witness :
  New (Toy.lib true) 2 27 (Toy.state0 [])
    = Done (Some Toy.decoder0, None) Toy.ready /\
  live Toy.ready = decoder_resources Toy.decoder0 ++ live (Toy.state0 []) /\
  calls Toy.ready = calls (Toy.state0 []) ++ calls_of_New /\
  Forall (fun f => is_release f = false) calls_of_New.
Proof.
  split; [exact New_on_toy|].
  exact (New_acquires_what_the_decoder_holds (Toy.lib true) 2 27
           (Toy.state0 []) Toy.decoder0 None Toy.ready New_on_toy).
Defined.

Lemma decodeFrameImpl_result_witness :
  exists f st',
    decodeFrameImpl (Toy.lib true) Toy.decoder0 [Byte.x00; Byte.x01] Toy.ready
      = Done (Some f, 2, true, None) st' /\
    2 = (parser_call (Toy.lib true) Toy.decoder0 [Byte.x00; Byte.x01]
           (world Toy.ready)).2.
Proof.
  eexists _, _. split; [vm_compute; reflexivity|].
  refine (proj1 (decodeFrameImpl_result (Toy.lib true) Toy.decoder0
                   [Byte.x00; Byte.x01] Toy.ready _ 2 true None _ _)).
  vm_compute. reflexivity.
Defined.

Lemma Decode_error_comes_without_frames_witness :
  exists e st',
    Decode (Toy.lib true) 2 Toy.decoder0 [Byte.x01; Byte.x02] Toy.ready
      = Done ([], Some e) st' /\
    exists rest st1 fr nread avail,
      rest <> [] /\
      decodeFrameImpl (Toy.lib true) Toy.decoder0 rest st1
        = Done (fr, nread, avail, Some e) st' /\
      nread < 0.
Proof.
  eexists _, _. split; [vm_compute; reflexivity|].
  refine (proj2 (Decode_error_comes_without_frames (Toy.lib true) 2
                   Toy.decoder0 [Byte.x01; Byte.x02] Toy.ready [] _ _ _)).
  vm_compute. reflexivity.
Defined.

Lemma Decode_in_bounds_keeps_frames_witness :
  exists f fs st',
    Decode_loop (Toy.lib false) 2 Toy.decoder0 [Byte.x00; Byte.x07]
      [f] Toy.ready = Done (fs, None) st' /\
    exists new, fs = [f] ++ new.
Proof.
  exists (mkFrame 0%nat 2 1 6). eexists _, _.
  split; [vm_compute; reflexivity|].
  refine (proj2 (Decode_in_bounds_keeps_frames (Toy.lib false) 2 Toy.decoder0
                   [Byte.x00; Byte.x07] [mkFrame 0%nat 2 1 6] Toy.ready _ None _
                   (toy_parser_in_bounds _) _)).
  vm_compute. reflexivity.
Defined.

Lemma Decode_panics_on_count_out_of_range_witness :
  exists st',
    decodeFrameImpl (Toy.with_parser (Toy.lib false) Toy.failing_parser)
      Toy.decoder0 [Byte.x01] Toy.ready = Done (None, -1, false, None) st' /\
    Decode_loop (Toy.with_parser (Toy.lib false) Toy.failing_parser) 1
      Toy.decoder0 [Byte.x01] [] Toy.ready
      = Panic "slice bounds out of range" st'.
Proof.
  eexists. split; [vm_compute; reflexivity|].
  apply (Decode_panics_on_count_out_of_range
           (Toy.with_parser (Toy.lib false) Toy.failing_parser) 0
           Toy.decoder0 [Byte.x01] [] Toy.ready None (-1) false None).
  - discriminate.
  - vm_compute. reflexivity.
  - left. split; [lia | reflexivity].
Defined.

Lemma Decode_frames_in_order_witness :
  exists f1 f2 st',
    Decode (Toy.lib true) 3 Toy.decoder0 [Byte.x01; Byte.x00; Byte.x81]
      Toy.ready = Done ([f1; f2], None) st' /\
    exists new,
      goheap st' = goheap Toy.ready ++ new /\
      length new = length [f1; f2] /\
      Data <$> [f1; f2] = seq (length (goheap Toy.ready)) (length [f1; f2]).
Proof.
  eexists _, _, _. split; [vm_compute; reflexivity|].
  refine (Decode_frames_in_order (Toy.lib true) 3 Toy.decoder0
            [Byte.x01; Byte.x00; Byte.x81] Toy.ready _ _ _).
  vm_compute. reflexivity.
Defined.

Lemma Decode_builds_a_scaling_context_per_picture_witness :
  exists fs st',
    conv_context (conv Toy.decoder0) = NULL /\
    Decode (Toy.lib true) 3 Toy.decoder0 [Byte.x01; Byte.x03; Byte.x07]
      Toy.ready = Done (fs, None) st' /\
    exists made,
      calls st' = calls Toy.ready ++ made /\
      one_context_per_picture made /\
      (@None error = None -> length fs = times FnSwsScale2 made).
Proof.
  eexists _, _. split; [reflexivity|].
  split; [vm_compute; reflexivity|].
  refine (Decode_builds_a_scaling_context_per_picture (Toy.lib true) 3
            Toy.decoder0 [Byte.x01; Byte.x03; Byte.x07] Toy.ready _ None _
            eq_refl _).
  vm_compute. reflexivity.
Defined.

Lemma Decode_leaves_only_scaling_contexts_witness :
  exists fs st',
    conv_context (conv Toy.decoder0) = NULL /\
    no_nil_handles (live Toy.ready) /\
    Decode (Toy.lib true) 3 Toy.decoder0 [Byte.x01; Byte.x03; Byte.x07]
      Toy.ready = Done (fs, None) st' /\
    (exists sws, live st' = sws ++ live Toy.ready /\ scaling_contexts sws) /\
    no_nil_handles (live st').
Proof.
  assert (Hlive : no_nil_handles (live Toy.ready)).
  { repeat constructor; discriminate. }
  eexists _, _. split; [reflexivity|]. split; [exact Hlive|].
  split; [vm_compute; reflexivity|].
  refine (Decode_leaves_only_scaling_contexts (Toy.lib true) 3
            Toy.decoder0 [Byte.x01; Byte.x03; Byte.x07] Toy.ready _ None _
            eq_refl Hlive _).
  vm_compute. reflexivity.
Defined.

Lemma Close_gives_back_what_New_took_witness :
  no_nil_handles (live (Toy.state0 [])) /\
  New (Toy.lib true) 2 27 (Toy.state0 [])
    = Done (Some Toy.decoder0, None) Toy.ready /\
  exists st2,
    Close (Toy.lib true) Toy.decoder0 Toy.ready = Done tt st2 /\
    live st2 = live (Toy.state0 []) /\
    calls st2 = calls (Toy.state0 []) ++ calls_of_New ++ calls_of_Close.
Proof.
  assert (Hlive : no_nil_handles (live (Toy.state0 []))) by constructor.
  split; [exact Hlive|]. split; [exact New_on_toy|].
  destruct (Close_gives_back_what_New_took (Toy.lib true) 2 27
              (Toy.state0 []) Toy.decoder0 None Toy.ready Hlive New_on_toy)
    as (st2 & Hrun & _ & Hl & Hc & _).
  exists st2. auto.
Defined.

(** Two chunks with a unit each, then [Close]: the two scaling contexts
    are what stays live. *)
Example Close_after_two_units :
  exists fs st2 st3,
    DecodeChunks (Toy.lib true) 1 Toy.decoder0 [[Byte.x01]; [Byte.x07]]
      Toy.ready = Done fs st2 /\
    Close (Toy.lib true) Toy.decoder0 st2 = Done tt st3 /\
    live st3 = [(ResSwsContext, 9); (ResSwsContext, 7)].
Proof.
  eexists _, _, _. split; [vm_compute; reflexivity|].
  split; vm_compute; reflexivity.
Qed.

Lemma Close_leaves_the_scaling_contexts_witness :
  exists fs st2,
    no_nil_handles (live (Toy.state0 [])) /\
    New (Toy.lib true) 2 27 (Toy.state0 [])
      = Done (Some Toy.decoder0, None) Toy.ready /\
    DecodeChunks (Toy.lib true) 1 Toy.decoder0 [[Byte.x01]; [Byte.x07]]
      Toy.ready = Done fs st2 /\
    exists st3 sws,
      live st2 = sws ++ decoder_resources Toy.decoder0
                   ++ live (Toy.state0 []) /\
      scaling_contexts sws /\
      Close (Toy.lib true) Toy.decoder0 st2 = Done tt st3 /\
      live st3 = sws ++ live (Toy.state0 []).
Proof.
  assert (Hlive : no_nil_handles (live (Toy.state0 []))) by constructor.
  eexists _, _. split; [exact Hlive|]. split; [exact New_on_toy|].
  split; [vm_compute; reflexivity|].
  destruct (Close_leaves_the_scaling_contexts (Toy.lib true) 2 27 1
              [[Byte.x01]; [Byte.x07]] (Toy.state0 []) Toy.decoder0 None
              Toy.ready _ _ Hlive New_on_toy ltac:(vm_compute; reflexivity))
    as (st3 & sws & H1 & H2 & H3 & H4 & _).
  exists st3, sws. auto.
Defined.

Lemma decodeFrameImpl_errors_witness :
  exists e st',
    decodeFrameImpl (Toy.lib true) Toy.decoder0 [Byte.x03] Toy.ready
      = Done (None, 1, true, Some e) st' /\
    ((e = "error decoding frame"%string /\
      exists w w' n got,
        AvcodecDecodeVideo2 (Toy.lib true) (context Toy.decoder0)
          (frame Toy.decoder0) (pkt Toy.decoder0) w = (w', (n, got)) /\
        (n < 0 \/ got = 0)) \/
     (exists wd ht w w',
        AvSetFrame (Toy.lib true) (framergb (conv Toy.decoder0)) wd ht
          (pixFmt (conv Toy.decoder0)) w = (w', Some e))).
Proof.
  eexists _, _. split; [vm_compute; reflexivity|].
  refine (decodeFrameImpl_errors (Toy.lib true) Toy.decoder0 [Byte.x03]
            Toy.ready None 1 true _ _ _).
  vm_compute. reflexivity.
Defined.

Lemma Convert_error_is_from_AvSetFrame_witness :
  exists e st',
    Convert (Toy.lib true) (conv Toy.decoder0) 1 3 9
      (Toy.decoded [FnAvSetFrame]) = Done (NULL, Some e) st' /\
    exists w,
      AvSetFrame (Toy.lib true) (framergb (conv Toy.decoder0))
        (CtxWidth (Toy.lib true) 1 (world (Toy.decoded [FnAvSetFrame])))
        (CtxHeight (Toy.lib true) 1 (world (Toy.decoded [FnAvSetFrame])))
        (pixFmt (conv Toy.decoder0)) w = (world st', Some e).
Proof.
  eexists _, _. split; [vm_compute; reflexivity|].
  refine (proj2 (proj2
            (Convert_error_is_from_AvSetFrame (Toy.lib true)
               (conv Toy.decoder0) 1 3 9 (Toy.decoded [FnAvSetFrame])
               NULL _ _ _))).
  vm_compute. reflexivity.
Defined.

Lemma ToRGB_pixels_within_Pix_witness :
  frame_wf [replicate 6 Byte.x01] (mkFrame 0%nat 2 1 6) /\
  Rect (ToRGB (mkFrame 0%nat 2 1 6)) = ((0, 0), (2, 1)) /\
  Pix (ToRGB (mkFrame 0%nat 2 1 6)) = 0%nat.
Proof.
  assert (Hwf : frame_wf [replicate 6 Byte.x01] (mkFrame 0%nat 2 1 6)).
  { exists (replicate 6 Byte.x01). cbn. repeat split; lia. }
  split; [exact Hwf|].
  pose proof (ToRGB_pixels_within_Pix [replicate 6 Byte.x01]
                (mkFrame 0%nat 2 1 6) Hwf ltac:(cbn; lia) ltac:(cbn; lia)) as H.
  tauto.
Defined.

Lemma newFrame_data_length_witness :
  exists st',
    newFrame (Toy.lib true) 5 (Toy.converted 2 1 6)
      = Done (mkFrame 0%nat 2 1 6) st' /\
    exists bytes,
      goheap st' !! 0%nat = Some bytes /\
      Z.of_nat (length bytes) = C_int (go_int (6 * 1)) /\
      (Z.of_nat (length bytes) = 6 * 1 <-> 0 <= 6 * 1 < 2 ^ 31).
Proof.
  eexists. split; [vm_compute; reflexivity|].
  refine (proj2 (proj2 (proj2
            (newFrame_data_length (Toy.lib true) 5 (Toy.converted 2 1 6)
               (mkFrame 0%nat 2 1 6) _ _)))).
  vm_compute. reflexivity.
Defined.

(** A picture of 2^32 bytes: the frame says 65536 lines of 65536 bytes,
    and its [Data] is empty. *)
Example newFrame_truncates :
  exists st',
    newFrame (Toy.lib true) 5 (Toy.converted 21845 65536 65536)
      = Done (mkFrame 0%nat 21845 65536 65536) st' /\
    goheap st' = [[]].
Proof. eexists. split; [vm_compute; reflexivity|]. reflexivity. Qed.
